(** * Transducer power controller: a shallow embedding of [code.py]

    The development follows the source file top to bottom:

    - numeric power values and the [threading.Event] object store;
    - the [TransducerController] object and its methods, written in a small
      state monad over the interpreter's world (object fields, the store of
      events, the console);
    - the ramp thread ([simulate_transducer_operation]) as a line-indexed
      step function, interleaved with the foreground's emergency stop;
    - the session loop of [run], consuming lines of standard input.

    Power values are Python numbers: [current_power] is an [int] (0, then
    repeatedly [+= 10]) until the clamp stores the [float] target in it.
    Sums of integers and comparisons between an [int] and a finite [float]
    are exact in Python, so values are modelled as rationals [Q]: Leibniz
    equality [=] is identity of the stored value, the setoid equality [==]
    is Python's [==].  The non-finite floats [inf] and [nan] are not values
    of the model; [validate_power_setting] rejects both, so no target that
    [run] accepts is one of them. *)

From Stdlib Require Import QArith Qround Qminmax Lqa Lia List Sorted.
From stdpp Require Import base option gmap.
Import ListNotations.

Local Open Scope Q_scope.

(** ** Numeric helpers *)

Definition Qltb (x y : Q) : bool := negb (Qle_bool y x).

(** ** [threading.Event] objects

    Events live in a store indexed by object identity; an [Event.ref] is
    what a Python variable holding the event contains. *)

Module Event.

Abbreviation ref := nat.
Abbreviation store := (gmap nat bool).

(** [threading.Event()] : a new object, flag initially false. *)
Definition new (h : store) : ref * store :=
  let l := fresh (dom h) in (l, <[l := false]> h).

Definition set (l : ref) (h : store) : store := <[l := true]> h.

Definition clear (l : ref) (h : store) : store := <[l := false]> h.

Definition is_set (l : ref) (h : store) : bool :=
  match h !! l with
  | Some b => b
  | None => false
  end.

End Event.

(** ** The controller object (lines 11-18) *)

Record TransducerController := mkController {
  MIN_POWER : Q;
  MAX_POWER : Q;
  current_power : Q;
  target_power : Q;
  is_running : bool;
  stop_event : Event.ref
}.

Definition with_current_power (c : Q) (o : TransducerController) :=
  mkController (MIN_POWER o) (MAX_POWER o) c (target_power o)
               (is_running o) (stop_event o).

Definition with_target_power (t : Q) (o : TransducerController) :=
  mkController (MIN_POWER o) (MAX_POWER o) (current_power o) t
               (is_running o) (stop_event o).

Definition with_is_running (b : bool) (o : TransducerController) :=
  mkController (MIN_POWER o) (MAX_POWER o) (current_power o) (target_power o)
               b (stop_event o).

(** What the program writes to the console, as far as it is modelled: the
    two prints that display [current_power], the progress line (line 67) and
    the stop report (lines 78-79).  The banner of lines 45-47 (which shows
    [target_power]), the separators of lines 77 and 80 and the messages of
    lines 84 and 126-127 are not modelled. *)
Inductive Output :=
| Progress (current : Q)
| Stopped (final : Q) (reached : bool).

(** ** The world the methods run in *)

Record World := mkWorld {
  self : TransducerController;
  heap : gmap nat bool;
  console : list Output
}.

Definition M (A : Type) : Type := World -> A * World.

Global Instance M_ret : MRet M := fun A a w => (a, w).

Global Instance M_bind : MBind M :=
  fun A B k m w => let (a, w') := m w in k a w'.

Definition ret {A} (a : A) : M A := mret a.

Definition get {A} (f : TransducerController -> A) : M A :=
  fun w => (f (self w), w).

Definition update (f : TransducerController -> TransducerController) : M unit :=
  fun w => (tt, mkWorld (f (self w)) (heap w) (console w)).

Definition print (o : Output) : M unit :=
  fun w => (tt, mkWorld (self w) (heap w) (console w ++ [o])).

Definition event_is_set : M bool :=
  fun w => (Event.is_set (stop_event (self w)) (heap w), w).

Definition event_set : M unit :=
  fun w => (tt, mkWorld (self w) (Event.set (stop_event (self w)) (heap w))
                        (console w)).

Definition event_clear : M unit :=
  fun w => (tt, mkWorld (self w) (Event.clear (stop_event (self w)) (heap w))
                        (console w)).

Definition exec_M {A} (m : M A) (w : World) : World := snd (m w).
Definition eval_M {A} (m : M A) (w : World) : A := fst (m w).

(** [__init__] (lines 12-18): the constants, the zeroed run state and the
    one [threading.Event()] of the controller. *)
Definition init (h : gmap nat bool) : World :=
  let (l, h') := Event.new h in
  mkWorld (mkController 50 5000 0 0 false l) h' [].

(** [validate_power_setting] (lines 20-22): a chained comparison. *)
Definition validate_power_setting (power : Q) : M bool :=
  lo ← get MIN_POWER;
  hi ← get MAX_POWER;
  ret (Qle_bool lo power && Qle_bool power hi).

(** [stop_transducer] (lines 74-80). *)
Definition stop_transducer : M unit :=
  update (with_is_running false);;
  c ← get current_power;
  t ← get target_power;
  print (Stopped c (Qle_bool t c)).

(** [emergency_stop] (lines 82-86). *)
Definition emergency_stop : M unit :=
  event_set;;
  stop_transducer.

(** ** The ramp thread and the foreground, line by line

    [simulate_transducer_operation] runs in its own thread while the
    foreground sits in [join] (line 118).  A [KeyboardInterrupt] makes the
    foreground run [emergency_stop].  Each actor advances one source line
    per move; a schedule says who moves next. *)

(** Line 50: [power_increment = 10]. *)
Definition power_increment : Q := 10.

Inductive RampPc :=
| R53   (* self.current_power = 0 *)
| R54   (* self.is_running = True *)
| R56   (* while self.is_running and self.current_power < self.target_power *)
| R57   (* if self.stop_event.is_set(): break *)
| R60   (* self.current_power += power_increment *)
| R63   (* if self.current_power > self.target_power: clamp *)
| R67   (* print current power *)
| R69   (* time.sleep(delay) *)
| R72   (* self.stop_transducer() *)
| RDone.

Inductive ForePc :=
| FJoin  (* operation_thread.join(), no interrupt so far *)
| F85    (* self.stop_event.set() *)
| F86    (* self.stop_transducer() *)
| FEnd.

Record Machine := mkMachine {
  world : World;
  rpc : RampPc;
  fpc : ForePc
}.

(** [simulate_transducer_operation] (lines 43-72), a line at a time: the
    effect of the line at [pc] and the line control goes to.  The banner
    prints of lines 45-47 carry no run state and are dropped. *)
Definition simulate_transducer_operation (pc : RampPc) : M RampPc :=
  match pc with
  | R53 => update (with_current_power 0);; ret R54
  | R54 => update (with_is_running true);; ret R56
  | R56 =>
      r ← get is_running;
      c ← get current_power;
      t ← get target_power;
      ret (if r && Qltb c t then R57 else R72)
  | R57 =>
      s ← event_is_set;
      ret (if s : bool then R72 else R60)
  | R60 =>
      c ← get current_power;
      update (with_current_power (c + power_increment));;
      ret R63
  | R63 =>
      c ← get current_power;
      t ← get target_power;
      (if Qltb t c then update (with_current_power t) else ret tt);;
      ret R67
  | R67 =>
      c ← get current_power;
      print (Progress c);;
      ret R69
  | R69 => ret R56
  | R72 => stop_transducer;; ret RDone
  | RDone => ret RDone
  end.

(** The [except KeyboardInterrupt] handler of [run] (lines 125-128), which
    calls [emergency_stop]: its lines 85 and 86, a line at a time.  The
    first move is the interrupt reaching the foreground. *)
Definition keyboard_interrupt (pc : ForePc) : M ForePc :=
  match pc with
  | FJoin => ret F85
  | F85 => event_set;; ret F86
  | F86 => stop_transducer;; ret FEnd
  | FEnd => ret FEnd
  end.

Inductive Actor := Ramp | Fore.

(** One move of one actor; an actor that is done stays where it is. *)
Definition step (a : Actor) (m : Machine) : Machine :=
  match a with
  | Ramp =>
      let (pc, w) := simulate_transducer_operation (rpc m) (world m) in
      mkMachine w pc (fpc m)
  | Fore =>
      let (pc, w) := keyboard_interrupt (fpc m) (world m) in
      mkMachine w (rpc m) pc
  end.

(** The machine after a schedule of moves. *)
Definition exec (sched : list Actor) (m : Machine) : Machine :=
  fold_left (fun m a => step a m) sched m.

(** The machine at [operation_thread.start()]. *)
Definition start (w : World) : Machine := mkMachine w R53 FJoin.

(** Moves a schedule gives to the ramp thread. *)
Fixpoint ramp_moves (sched : list Actor) : nat :=
  match sched with
  | [] => 0
  | Ramp :: sched' => S (ramp_moves sched')
  | Fore :: sched' => ramp_moves sched'
  end.

(** The progress observations on a console, in order. *)
Fixpoint progress (out : list Output) : list Q :=
  match out with
  | [] => []
  | Progress c :: out' => c :: progress out'
  | Stopped _ _ :: out' => progress out'
  end.

(** Number of [+= power_increment] moves (line 60) made along a schedule. *)
Fixpoint increments (sched : list Actor) (m : Machine) : nat :=
  match sched with
  | [] => 0
  | a :: sched' =>
      (match a, rpc m with Ramp, R60 => 1 | _, _ => 0 end
       + increments sched' (step a m))%nat
  end.

(** Number of [stop_event.set()] moves (line 85) made along a schedule. *)
Fixpoint signal_writes (sched : list Actor) (m : Machine) : nat :=
  match sched with
  | [] => 0
  | a :: sched' =>
      (match a, fpc m with Fore, F85 => 1 | _, _ => 0 end
       + signal_writes sched' (step a m))%nat
  end.

(** Line 108 of [run]: [self.target_power = target_power]. *)
Definition arm (t : Q) (w : World) : World :=
  exec_M (update (with_target_power t)) w.

(** Shorthands for the fields an observer of a run looks at. *)
Definition current (m : Machine) : Q := current_power (self (world m)).
Definition target (m : Machine) : Q := target_power (self (world m)).
Definition running (m : Machine) : bool := is_running (self (world m)).
Definition signalled (m : Machine) : bool :=
  Event.is_set (stop_event (self (world m))) (heap (world m)).

(** Modelled from the spec: the [CycleOutcome] record, which the source has
    no type for and writes to the console only.  Read off the machine once
    the ramp thread is done, [final_power] and [reached_target] are the two
    values [stop_transducer] prints (lines 78-79), and [interrupted] is
    [signal.is_set()] at that point. *)
Record CycleOutcome := mkOutcome {
  final_power : Q;
  reached_target : bool;
  interrupted : bool
}.

Definition outcome (m : Machine) : CycleOutcome :=
  mkOutcome (current m) (Qle_bool (target m) (current m)) (signalled m).

(** ** Closed forms used in the statements *)

(** The value stored in [current_power] after [j] increments: the integer
    [10 * j] while it does not overshoot, the target itself once clamped. *)
Definition ramp_level (t : Q) (j : nat) : Q :=
  match j with
  | O => 0
  | S _ =>
      if Qle_bool (inject_Z (10 * Z.of_nat j)) t
      then inject_Z (10 * Z.of_nat j)
      else t
  end.

(** Steps an uninterrupted ramp to [t] takes: [ceil (t / 10)]. *)
Definition steps_needed (t : Q) : nat := Z.to_nat (Qceiling (t / power_increment)).

(** Lines the ramp thread executes at most: two to initialise, six per step,
    two to leave the loop and report. *)
Definition ramp_budget (t : Q) : nat := (4 + 6 * steps_needed t)%nat.

(** Lines 63-64 as a function of the target and the incremented value. *)
Definition clamp (t c : Q) : Q := if Qltb t c then t else c.

(** What [current_power] settles to from a state in which no new step will
    be started: a step past its check (lines 60-69) is still completed. *)
Definition settle (m : Machine) : Q :=
  match rpc m with
  | R53 => 0
  | R60 => clamp (target m) (current m + power_increment)
  | R63 => clamp (target m) (current m)
  | _ => current m
  end.

(** ** The session loop of [run] (lines 88-130) *)

(** A line typed at an [input()] prompt, as far as the program tells lines
    apart; [LCtrlC] is a [KeyboardInterrupt] raised while the prompt waits.
    Text that [float()] parses to [inf] or [nan] fails both comparisons of
    [validate_power_setting] and is re-prompted like [LOther]. *)
Inductive Line :=
| LQuit
| LNumber (p : Q)
| LYes
| LOther
| LCtrlC.

Inductive Prompt :=
| PQuit
| PPower (p : Q)
| PInterrupt
| PEof.

(** [get_user_power_setting] (lines 24-41): prompt until ['q'] or a number
    in range. *)
Fixpoint get_user_power_setting (w : World) (stdin : list Line)
  : Prompt * list Line :=
  match stdin with
  | [] => (PEof, [])
  | LQuit :: rest => (PQuit, rest)
  | LNumber p :: rest =>
      if eval_M (validate_power_setting p) w
      then (PPower p, rest)
      else get_user_power_setting w rest
  | LCtrlC :: rest => (PInterrupt, rest)
  | _ :: rest => get_user_power_setting w rest
  end.

(** One cycle of the session, as seen from outside. *)
Record Cycle := mkCycle {
  cycle_signal : Event.ref;       (* the event object the ramp thread polls *)
  cycle_signal_at_start : bool;   (* its flag when the thread is started *)
  cycle_target : Q;
  cycle_end : Machine
}.

(** The [while True] loop of [run].  The [n]-th cycle is interleaved along
    the [n]-th schedule; when that leaves the foreground in [join], the
    thread runs to its end, otherwise the interrupt handler does. *)
Fixpoint run_loop (fuel : nat) (stdin : list Line) (scheds : list (list Actor))
         (w : World) : list Cycle * World :=
  match fuel with
  | O => ([], w)
  | S fuel' =>
      let w1 := exec_M event_clear w in                      (* line 99 *)
      match get_user_power_setting w1 stdin with             (* line 102 *)
      | (PQuit, _) | (PEof, _) => ([], w1)                   (* lines 104-106 *)
      | (PInterrupt, _) => ([], exec_M emergency_stop w1)    (* lines 125-128 *)
      | (PPower p, rest) =>
          let w2 := arm p w1 in                              (* line 108 *)
          let m0 := start w2 in                              (* lines 111-115 *)
          let m := exec (hd [] scheds) m0 in
          let cycle := mkCycle (stop_event (self w2)) (signalled m0) p in
          match fpc m with
          | FJoin =>
              let m' := exec (repeat Ramp (ramp_budget p)) m in  (* line 118 *)
              match rest with                                    (* lines 121-123 *)
              | LYes :: rest' =>
                  let (cycles, w') := run_loop fuel' rest' (tl scheds) (world m') in
                  (cycle m' :: cycles, w')
              | LCtrlC :: _ => ([cycle m'], exec_M emergency_stop (world m'))
              | _ => ([cycle m'], world m')
              end
          | _ =>
              let m' := exec [Fore; Fore; Fore] m in
              ([cycle m'], world m')
          end
      end
  end.

Definition run (stdin : list Line) (scheds : list (list Actor)) (w : World)
  : list Cycle * World :=
  run_loop (S (length stdin)) stdin scheds w.

(** The progress observations of one run: what the thread started from
    world [w] has added to the console by the time the machine is [m]. *)
Definition observations (w : World) (m : Machine) : list Q :=
  drop (length (progress (console w))) (progress (console (world m))).

(** The power envelope with the pre-start value, [[min, max] ∪ {0}]. *)
Definition in_envelope (lo hi v : Q) : Prop := v == 0 \/ (lo <= v /\ v <= hi).

(** Lines the ramp thread still executes at most once the stop event is set:
    a step past its check is completed (lines 60-69), then the loop is left
    at line 56 or 57 and the stop is reported. *)
Definition wind_down (pc : RampPc) : nat :=
  match pc with
  | R60 => 7
  | R63 => 6
  | R53 | R67 => 5
  | R54 | R69 => 4
  | R56 => 3
  | R57 => 2
  | R72 => 1
  | RDone => 0
  end.

(** Increments still to come once the stop event is set: the one of a step
    whose check has passed and whose increment has not been made. *)
Definition in_flight (pc : RampPc) : nat :=
  match pc with
  | R60 => 1
  | _ => 0
  end.

(** The controller still holds the event [l], and the store holds the
    objects [d] and no other. *)
Definition holds_event (l : Event.ref) (d : gset nat) (w : World) : Prop :=
  stop_event (self w) = l /\ dom (heap w) = d.

(** ** The program as a whole, and what is read off its console *)

(** [main] (lines 132-135): build the controller, run the session. *)
Definition main (stdin : list Line) (scheds : list (list Actor))
  : list Cycle * World :=
  run stdin scheds (init ∅).

(** The lines [get_user_power_setting] answers with an error message and
    another prompt (lines 37-41): a number out of range, or text that is
    neither ['q'] nor a number. *)
Definition reprompted (w : World) (l : Line) : bool :=
  match l with
  | LQuit | LCtrlC => false
  | LNumber p => negb (eval_M (validate_power_setting p) w)
  | LYes | LOther => true
  end.

(** The power a console line shows. *)
Definition shown (o : Output) : Q :=
  match o with
  | Progress c => c
  | Stopped c _ => c
  end.

(** Stop reports ("TRANSDUCER STOPPED at ...") on a console. *)
Fixpoint stop_reports (out : list Output) : nat :=
  match out with
  | [] => 0
  | Progress _ :: out' => stop_reports out'
  | Stopped _ _ :: out' => S (stop_reports out')
  end.

(** The stop report the ramp thread ends with, once it is done. *)
Definition final_report (m : Machine) : list Output :=
  match rpc m with
  | RDone => [Stopped (current m) (Qle_bool (target m) (current m))]
  | _ => []
  end.

(** A cycle that ran to its end with the foreground still in [join]. *)
Definition joined (c : Cycle) : Prop :=
  fpc (cycle_end c) = FJoin /\ rpc (cycle_end c) = RDone.

(** A displayed power inside [[0, MAX_POWER]]. *)
Definition displayable (v : Q) : Prop := 0 <= v /\ v <= 5000.

(** The two constants of the envelope, as [__init__] sets them. *)
Definition constants_kept (w : World) : Prop :=
  MIN_POWER (self w) = 50 /\ MAX_POWER (self w) = 5000.

(** Stop reports a run has printed: one by the ramp thread once it is done,
    one by the interrupt handler once it is. *)
Definition reported (m : Machine) : nat :=
  ((match rpc m with RDone => 1 | _ => 0 end)
   + (match fpc m with FEnd => 1 | _ => 0 end))%nat.

(** The lines of the ramp thread at which [is_running] is not set: before
    line 54 has run and after line 76 has. *)
Definition outside_loop (pc : RampPc) : Prop :=
  match pc with
  | R53 | R54 | RDone => True
  | _ => False
  end.

(** What holds of the world between two cycles of the program: the
    constants, and nothing displayed or stored outside [[0, 5000]]. *)
Definition displays_in_range (w : World) : Prop :=
  constants_kept w
  /\ displayable (current_power (self w))
  /\ Forall (fun o => displayable (shown o)) (console w).

(** Observations still to come once the stop event is set: the one of a
    step that has passed its check (line 57) and not yet printed (line 67). *)
Definition pending (pc : RampPc) : nat :=
  match pc with
  | R60 | R63 | R67 => 1
  | _ => 0
  end.

(** What a run has added to the console. *)
Definition run_output (w : World) (m : Machine) : list Output :=
  drop (length (console w)) (console (world m)).

(** ** The invariant of a run *)

(** Progress lines already printed when [j] increments have been made. *)
Definition printed (pc : RampPc) (j : nat) : nat :=
  match pc with
  | R63 | R67 => pred j
  | _ => j
  end.

Definition in_loop (pc : RampPc) : Prop :=
  match pc with
  | R56 | R57 | R60 | R63 | R67 | R69 => True
  | _ => False
  end.

Definition exited (pc : RampPc) : Prop :=
  match pc with
  | R72 | RDone => True
  | _ => False
  end.

Definition interrupt_raised (pc : ForePc) : Prop :=
  match pc with
  | F86 | FEnd => True
  | _ => False
  end.

(** What the ramp thread knows about [current_power] at each line. *)
Definition pc_inv (t : Q) (j : nat) (pc : RampPc) (c : Q) : Prop :=
  match pc with
  | R53 => j = 0%nat
  | R54 => j = 0%nat /\ c = 0
  | R56 | R72 | RDone => c = ramp_level t j
  | R57 | R60 => c = ramp_level t j /\ c < t
  | R63 => (1 <= j)%nat /\ c = inject_Z (10 * Z.of_nat j)
  | R67 | R69 => (1 <= j)%nat /\ c = ramp_level t j
  end.

Record RunInv (l0 : Event.ref) (p0 : list Q) (t : Q) (j : nat) (m : Machine)
  : Prop := {
  inv_target : target m = t;
  inv_event : stop_event (self (world m)) = l0;
  inv_guard : (1 <= j)%nat -> inject_Z (10 * (Z.of_nat j - 1)) < t;
  inv_pc : pc_inv t j (rpc m) (current m);
  inv_progress :
    progress (console (world m)) =
    p0 ++ map (ramp_level t) (seq 1 (printed (rpc m) j));
  inv_fore : interrupt_raised (fpc m) -> signalled m = true;
  inv_loop : in_loop (rpc m) -> running m = true \/ signalled m = true;
  inv_exit : exited (rpc m) -> t <= current m \/ signalled m = true;
  inv_report :
    rpc m = RDone ->
    In (Stopped (current m) (Qle_bool t (current m))) (console (world m))
}.

(** Lines the ramp thread still has to execute at most, at line [pc] after
    [j] increments, when [n] steps are needed in all. *)
Definition remaining (n j : nat) (pc : RampPc) : nat :=
  match pc with
  | R53 => 4 + 6 * n
  | R54 => 3 + 6 * n
  | R56 => 2 + 6 * (n - j)
  | R57 => 1 + 6 * (n - j)
  | R60 => 6 * (n - j)
  | R63 => 5 + 6 * (n - j)
  | R67 => 4 + 6 * (n - j)
  | R69 => 3 + 6 * (n - j)
  | R72 => 1
  | RDone => 0
  end%nat.

(** * Proofs *)

(** ** Comparisons, sums and lists *)

Lemma Qltb_lt x y : Qltb x y = true <-> x < y.
Proof.
  unfold Qltb. rewrite negb_true_iff. split.
  - intros H. apply Qnot_le_lt. intros Hle. apply Qle_bool_iff in Hle. congruence.
  - intros H. destruct (Qle_bool y x) eqn:E; auto. apply Qle_bool_iff in E. lra.
Qed.

Lemma Qltb_ge x y : Qltb x y = false <-> y <= x.
Proof.
  unfold Qltb. rewrite negb_false_iff. apply Qle_bool_iff.
Qed.

Lemma inject_Z_add10 a : inject_Z a + power_increment = inject_Z (a + 10).
Proof. unfold power_increment, inject_Z, Qplus. simpl. f_equal. lia. Qed.

Lemma progress_app out1 out2 : progress (out1 ++ out2) = progress out1 ++ progress out2.
Proof.
  induction out1 as [|[c|c r] out1 IH]; simpl; [reflexivity | f_equal; exact IH | exact IH].
Qed.

Lemma ramp_level_below t j : ramp_level t j < t -> ramp_level t j = inject_Z (10 * Z.of_nat j).
Proof.
  destruct j as [|j]; [reflexivity|].
  unfold ramp_level. destruct (Qle_bool _ t); [reflexivity | lra].
Qed.

Lemma ramp_level_clamp t j :
  (1 <= j)%nat -> clamp t (inject_Z (10 * Z.of_nat j)) = ramp_level t j.
Proof.
  destruct j as [|j]; [lia|]. intros _. unfold clamp, ramp_level, Qltb.
  destruct (Qle_bool _ t); reflexivity.
Qed.

Lemma seq_pred_snoc j : (1 <= j)%nat -> seq 1 j = seq 1 (pred j) ++ [j].
Proof.
  destruct j as [|j]; [lia|]. intros _. rewrite seq_S. reflexivity.
Qed.

(** Executes the line an actor is at, once the machine is given by its
    fields. *)
Ltac run_line :=
  cbv [step simulate_transducer_operation keyboard_interrupt
       stop_transducer emergency_stop mbind M_bind mret M_ret ret get update print event_is_set event_set
       exec_M eval_M current target running signalled
       with_current_power with_is_running with_target_power
       world rpc fpc self heap console
       MIN_POWER MAX_POWER current_power target_power is_running stop_event] in *.

(** ** Each line preserves the invariant *)

Lemma is_set_after_set l h : Event.is_set l (Event.set l h) = true.
Proof. unfold Event.is_set, Event.set. rewrite lookup_insert_eq. reflexivity. Qed.

(** Splits the invariant into its clauses and closes the routine ones. *)
Ltac inv_crush :=
  unfold pc_inv, printed, in_loop, exited, interrupt_raised in *; simpl in *;
  repeat match goal with
  | H : _ /\ _ |- _ => destruct H
  | H : True -> _ |- _ => specialize (H I)
  | H : False -> _ |- _ => clear H
  | H : ?x = ?x -> _ |- _ => specialize (H eq_refl)
  | H : R53 = _ -> _ |- _ => clear H
  | |- _ /\ _ => split
  | |- _ -> _ => intro
  end; subst; simpl in *; try tauto; try discriminate; try lia; try lra; auto;
  try solve [intuition (try discriminate; try lra; auto)].

Lemma ramp_preserves l0 p0 t j m :
  RunInv l0 p0 t j m ->
  RunInv l0 p0 t (match rpc m with R60 => S j | _ => j end) (step Ramp m).
Proof.
  intros [Ht He Hg Hp Hc Hf Hl Hx Hr].
  destruct m as [[[lo hi c tt r l] h out] pc f].
  run_line. destruct pc; run_line; unfold pc_inv, printed, in_loop, exited in *.
  - constructor; run_line; inv_crush.
  - constructor; run_line; inv_crush.
  - destruct r; simpl;
      [destruct (Qltb c tt) eqn:E; [apply Qltb_lt in E | apply Qltb_ge in E]|];
      constructor; run_line; inv_crush.
  - destruct (Event.is_set l h) eqn:E; constructor; run_line; inv_crush.
  - constructor; run_line; inv_crush.
    + replace (Z.of_nat (S j) - 1)%Z with (Z.of_nat j) by lia.
      rewrite <- (ramp_level_below t j); auto.
    + rewrite (ramp_level_below t j); auto. rewrite inject_Z_add10. f_equal. lia.
  - assert (Hcl : (if Qltb tt c then tt else c) = ramp_level tt j).
    { destruct Hp as [Hj ->]. apply (ramp_level_clamp tt j Hj). }
    destruct (Qltb tt c) eqn:E; constructor; run_line; inv_crush.
  - constructor; run_line; inv_crush.
    rewrite progress_app, Hc. simpl. rewrite <- app_assoc. f_equal.
    match goal with
    | Hj : (1 <= j)%nat |- _ => rewrite (seq_pred_snoc j Hj), map_app
    end.
    reflexivity.
  - constructor; run_line; inv_crush.
  - constructor; run_line; inv_crush.
    + rewrite progress_app, Hc. simpl. apply app_nil_r.
    + apply in_or_app. right. left. reflexivity.
  - constructor; run_line; inv_crush.
Qed.

Lemma fore_preserves l0 p0 t j m :
  RunInv l0 p0 t j m -> RunInv l0 p0 t j (step Fore m).
Proof.
  intros [Ht He Hg Hp Hc Hf Hl Hx Hr].
  destruct m as [[[lo hi c tt r l] h out] pc f].
  run_line. destruct f; run_line; unfold interrupt_raised in *.
  - constructor; run_line; inv_crush.
  - constructor; run_line; rewrite ?is_set_after_set; inv_crush.
  - constructor; run_line; inv_crush.
    + rewrite progress_app, Hc. simpl. apply app_nil_r.
    + apply in_or_app. left. auto.
  - constructor; run_line; inv_crush.
Qed.

(** ** Whole schedules *)

Lemma exec_cons a sched m : exec (a :: sched) m = exec sched (step a m).
Proof. reflexivity. Qed.

Lemma exec_app s1 s2 m : exec (s1 ++ s2) m = exec s2 (exec s1 m).
Proof. unfold exec. apply fold_left_app. Qed.

Lemma step_preserves l0 p0 t j a m :
  RunInv l0 p0 t j m ->
  RunInv l0 p0 t (match a, rpc m with Ramp, R60 => 1 | _, _ => 0 end + j)
         (step a m).
Proof.
  intros H. destruct a.
  - pose proof (ramp_preserves _ _ _ _ _ H) as H'. destruct (rpc m); exact H'.
  - apply fore_preserves, H.
Qed.

Lemma exec_preserves l0 p0 t sched :
  forall m j,
    RunInv l0 p0 t j m ->
    RunInv l0 p0 t (j + increments sched m) (exec sched m).
Proof.
  induction sched as [|a sched IH]; intros m j H.
  - simpl. rewrite Nat.add_0_r. exact H.
  - rewrite exec_cons. simpl increments.
    apply (step_preserves _ _ _ _ a) in H. apply IH in H.
    replace (j + (match a, rpc m with Ramp, R60 => 1 | _, _ => 0 end
                  + increments sched (step a m)))%nat
      with (match a, rpc m with Ramp, R60 => 1 | _, _ => 0 end + j
            + increments sched (step a m))%nat by lia.
    exact H.
Qed.

Lemma start_inv t w :
  RunInv (stop_event (self w)) (progress (console w)) t 0 (start (arm t w)).
Proof.
  destruct w as [[lo hi c tt r l] h out].
  constructor; unfold start, arm; run_line; simpl; auto; try tauto; try lia; try discriminate.
  symmetry. apply app_nil_r.
Qed.

Lemma run_inv t w sched :
  RunInv (stop_event (self w)) (progress (console w)) t
         (increments sched (start (arm t w))) (exec sched (start (arm t w))).
Proof. apply (exec_preserves _ _ _ sched _ 0%nat), start_inv. Qed.

(** Arithmetic of step counts *)
Lemma steps_needed_above t j :
  inject_Z (10 * Z.of_nat j) < t -> (j < steps_needed t)%nat.
Proof.
  intros H. unfold steps_needed, power_increment.
  assert (Hq : inject_Z (Z.of_nat j) < t / 10).
  { apply Qlt_shift_div_l; [lra|]. rewrite inject_Z_mult in H. 
    change (inject_Z 10) with 10 in H. lra. }
  pose proof (Qle_ceiling (t / 10)) as Hc.
  assert (Hz : (Z.of_nat j < Qceiling (t / 10))%Z).
  { rewrite Zlt_Qlt. lra. }
  lia.
Qed.

Lemma steps_needed_below t j :
  (1 <= j)%nat -> inject_Z (10 * (Z.of_nat j - 1)) < t -> (j <= steps_needed t)%nat.
Proof.
  intros Hj H. 
  assert (H' : (pred j < steps_needed t)%nat).
  { apply steps_needed_above. replace (Z.of_nat (pred j)) with (Z.of_nat j - 1)%Z by lia. exact H. }
  lia.
Qed.

Lemma steps_needed_reached t j :
  t <= inject_Z (10 * Z.of_nat j) -> (steps_needed t <= j)%nat.
Proof.
  intros H. unfold steps_needed, power_increment.
  assert (Hq : t / 10 <= inject_Z (Z.of_nat j)).
  { apply Qle_shift_div_r; [lra|]. rewrite inject_Z_mult in H.
    change (inject_Z 10) with 10 in H. lra. }
  assert (Hz : (Qceiling (t / 10) <= Z.of_nat j)%Z).
  { rewrite <- (Qceiling_Z (Z.of_nat j)). apply Qceiling_resp_le. exact Hq. }
  lia.
Qed.

(** ** The ramp thread runs out of lines *)

Lemma ramp_next_pc m :
  rpc (step Ramp m) =
  match rpc m with
  | R53 => R54
  | R54 => R56
  | R56 => if running m && Qltb (current m) (target m) then R57 else R72
  | R57 => if signalled m then R72 else R60
  | R60 => R63
  | R63 => R67
  | R67 => R69
  | R69 => R56
  | R72 => RDone
  | RDone => RDone
  end.
Proof.
  destruct m as [[[lo hi c tt r l] h out] pc f].
  destruct pc; run_line; try reflexivity.
  destruct (Qltb tt c); reflexivity.
Qed.

Lemma fore_keeps_ramp m :
  rpc (step Fore m) = rpc m /\ current (step Fore m) = current m
  /\ target (step Fore m) = target m.
Proof.
  destruct m as [[[lo hi c tt r l] h out] pc f].
  destruct f; run_line; auto.
Qed.

Lemma inv_level_count l0 p0 t j m :
  RunInv l0 p0 t j m ->
  (j <= steps_needed t)%nat
  /\ (match rpc m with R57 | R60 => j < steps_needed t | _ => True end)%nat
  /\ (match rpc m with R53 | R54 => j = 0 | _ => True end)%nat.
Proof.
  intros H. split; [|split].
  - destruct j as [|j]; [lia|]. apply steps_needed_below; [lia|].
    apply (inv_guard _ _ _ _ _ H). lia.
  - pose proof (inv_pc _ _ _ _ _ H) as Hp.
    destruct (rpc m); auto; destruct Hp as [Hc Hlt]; apply steps_needed_above;
      rewrite <- (ramp_level_below t j); rewrite <- Hc; exact Hlt.
  - pose proof (inv_pc _ _ _ _ _ H) as Hp.
    destruct (rpc m); auto; simpl in Hp; tauto.
Qed.

Lemma ramp_decreases l0 p0 t j m :
  RunInv l0 p0 t j m ->
  rpc m <> RDone ->
  (S (remaining (steps_needed t) (match rpc m with R60 => S j | _ => j end)
                (rpc (step Ramp m)))
   <= remaining (steps_needed t) j (rpc m))%nat.
Proof.
  intros H Hpc. destruct (inv_level_count _ _ _ _ _ H) as (Hle & Hlt & Hz).
  rewrite ramp_next_pc.
  destruct (rpc m); simpl; try congruence; try lia.
  - destruct (running m && Qltb (current m) (target m)); simpl; lia.
  - destruct (signalled m); simpl; lia.
Qed.

Lemma remaining_zero l0 p0 t j m :
  RunInv l0 p0 t j m -> remaining (steps_needed t) j (rpc m) = 0%nat -> rpc m = RDone.
Proof.
  intros H. destruct (inv_level_count _ _ _ _ _ H) as (Hle & Hlt & Hz).
  destruct (rpc m); simpl; try lia. auto.
Qed.

Lemma exec_remaining l0 p0 t sched :
  forall m j,
    RunInv l0 p0 t j m ->
    (remaining (steps_needed t) (j + increments sched m) (rpc (exec sched m))
     <= remaining (steps_needed t) j (rpc m) - ramp_moves sched)%nat.
Proof.
  induction sched as [|a sched IH]; intros m j H.
  - simpl. rewrite Nat.add_0_r. lia.
  - rewrite exec_cons. simpl increments.
    pose proof (step_preserves _ _ _ _ a _ H) as H'.
    specialize (IH _ _ H').
    replace (j + (match a, rpc m with Ramp, R60 => 1 | _, _ => 0 end
                  + increments sched (step a m)))%nat
      with (match a, rpc m with Ramp, R60 => 1 | _, _ => 0 end + j
            + increments sched (step a m))%nat by lia.
    etransitivity; [exact IH|].
    destruct a; simpl ramp_moves.
    + assert (rpc m = RDone \/ rpc m <> RDone) as [E|E]
        by (destruct (rpc m); auto; right; discriminate).
      * rewrite ramp_next_pc, E. simpl. lia.
      * pose proof (ramp_decreases _ _ _ _ _ H E) as Hd.
        destruct (rpc m); simpl in *; lia.
    + destruct (fore_keeps_ramp m) as (-> & _). simpl. lia.
Qed.

Lemma run_terminates t w sched :
  (ramp_budget t <= ramp_moves sched)%nat ->
  rpc (exec sched (start (arm t w))) = RDone.
Proof.
  intros Hb.
  pose proof (exec_remaining _ _ t sched _ _ (start_inv t w)) as Hr.
  pose proof (run_inv t w sched) as Hi.
  apply (remaining_zero _ _ _ _ _ Hi).
  simpl in Hr. unfold ramp_budget in Hb. simpl remaining in Hr. lia.
Qed.

(** ** What a run has printed *)

Lemma observations_run t w sched :
  observations w (exec sched (start (arm t w))) =
  map (ramp_level t)
      (seq 1 (printed (rpc (exec sched (start (arm t w))))
                      (increments sched (start (arm t w))))).
Proof.
  unfold observations. rewrite (inv_progress _ _ _ _ _ (run_inv t w sched)).
  apply drop_app_length.
Qed.

Lemma ramp_level_le t j : 0 <= t -> ramp_level t j <= t.
Proof.
  intros Ht. destruct j as [|j]; [exact Ht|]. unfold ramp_level.
  destruct (Qle_bool _ t) eqn:E; [apply Qle_bool_iff, E | lra].
Qed.

Lemma ramp_level_pos_le t j : (1 <= j)%nat -> ramp_level t j <= t.
Proof.
  destruct j as [|j]; [lia|]. intros _. unfold ramp_level.
  destruct (Qle_bool _ t) eqn:E; [apply Qle_bool_iff, E | lra].
Qed.

Lemma inject_Z_10 k : inject_Z (10 * k) == 10 * inject_Z k.
Proof. rewrite inject_Z_mult. reflexivity. Qed.

Lemma ramp_level_min t j :
  (1 <= j)%nat -> ramp_level t j == Qmin (10 * inject_Z (Z.of_nat j)) t.
Proof.
  destruct j as [|j]; [lia|]. intros _. unfold ramp_level.
  rewrite <- inject_Z_10.
  destruct (Qle_bool _ t) eqn:E.
  - apply Qle_bool_iff in E. symmetry. apply Q.min_l. exact E.
  - symmetry. apply Q.min_r. destruct (Qlt_le_dec t (inject_Z (10 * Z.of_nat (S j)))) as [H|H].
    + lra.
    + apply Qle_bool_iff in H. congruence.
Qed.

Lemma ramp_level_exact t j :
  inject_Z (10 * Z.of_nat j) < t -> ramp_level t j = inject_Z (10 * Z.of_nat j).
Proof.
  intros H. destruct j as [|j]; [reflexivity|]. unfold ramp_level.
  destruct (Qle_bool _ t) eqn:E; [reflexivity|].
  assert (Qle_bool (inject_Z (10 * Z.of_nat (S j))) t = true) by (apply Qle_bool_iff; lra).
  congruence.
Qed.

Lemma ramp_level_lt t n x y :
  inject_Z (10 * (Z.of_nat n - 1)) < t ->
  (x < y <= n)%nat -> ramp_level t x < ramp_level t y.
Proof.
  intros Hg Hxy.
  assert (Hx : inject_Z (10 * Z.of_nat x) < t).
  { eapply Qle_lt_trans; [|exact Hg]. rewrite <- Zle_Qle. lia. }
  rewrite (ramp_level_exact t x Hx).
  destruct y as [|y]; [lia|]. unfold ramp_level.
  destruct (Qle_bool _ t); [|exact Hx].
  rewrite <- Zlt_Qlt. lia.
Qed.

Lemma ramp_levels_sorted t n :
  forall s, (1 <= s)%nat ->
    ((1 <= n)%nat -> inject_Z (10 * (Z.of_nat (s + n - 1) - 1)) < t) ->
    StronglySorted Qlt (map (ramp_level t) (seq s n)).
Proof.
  induction n as [|n IH]; intros s Hs Hg; simpl; constructor.
  - apply IH; [lia|]. intros Hn. replace (S s + n - 1)%nat with (s + S n - 1)%nat by lia.
    apply Hg. lia.
  - apply List.Forall_forall. intros v Hv. apply in_map_iff in Hv as (y & <- & Hy).
    apply in_seq in Hy. apply (ramp_level_lt t (s + S n - 1)); [apply Hg; lia | lia].
Qed.

Lemma printed_le pc j : (printed pc j <= j)%nat.
Proof. destruct pc; simpl; lia. Qed.

(** ** The stop event during a run *)

Lemma step_signal_kept a m : signalled m = true -> signalled (step a m) = true.
Proof.
  destruct m as [[[lo hi c tt r l] h out] pc f].
  destruct a; [destruct pc | destruct f]; run_line; auto.
  - destruct (Qltb tt c); auto.
  - intros _. apply is_set_after_set.
Qed.

Lemma exec_signal_kept sched : forall m, signalled m = true -> signalled (exec sched m) = true.
Proof.
  induction sched as [|a sched IH]; intros m H; [exact H|].
  rewrite exec_cons. apply IH, step_signal_kept, H.
Qed.

(** ** The scenarios of the specification, run on the model *)

(** Target 35 is below the minimum and rejected. *)
Example scenario_target_35_rejected :
  eval_M (validate_power_setting 35) (init ∅) = false.
Proof. reflexivity. Qed.

(** Target 100, uninterrupted: ten observations, target reached. *)
Example scenario_target_100 :
  let m := exec (repeat Ramp 64) (start (arm 100 (init ∅))) in
  observations (init ∅) m = [10; 20; 30; 40; 50; 60; 70; 80; 90; 100]
  /\ rpc m = RDone
  /\ outcome m = mkOutcome 100 true false
  /\ console (world m) =
     map Progress [10; 20; 30; 40; 50; 60; 70; 80; 90; 100] ++ [Stopped 100 true].
Proof. vm_compute. repeat split; reflexivity. Qed.

(** Target 100, interrupt while the thread sleeps after reporting 40. *)
Example scenario_stop_after_40 :
  let m := exec (repeat Ramp 25 ++ [Fore; Fore; Fore] ++ repeat Ramp 3)
                (start (arm 100 (init ∅))) in
  observations (init ∅) m = [10; 20; 30; 40]
  /\ rpc m = RDone
  /\ outcome m = mkOutcome 40 false true.
Proof. vm_compute. repeat split; reflexivity. Qed.

(** A target that is not a multiple of the step is reached by the clamp. *)
Example scenario_target_35_clamped :
  let m := exec (repeat Ramp 28) (start (arm 35 (init ∅))) in
  observations (init ∅) m = [10; 20; 30; 35]
  /\ outcome m = mkOutcome 35 true false.
Proof. vm_compute. repeat split; reflexivity. Qed.

(** The three foreground lines of an interrupt are [emergency_stop]. *)
Lemma interrupt_runs_emergency_stop m :
  fpc m = FJoin ->
  world (exec [Fore; Fore; Fore] m) = exec_M emergency_stop (world m)
  /\ fpc (exec [Fore; Fore; Fore] m) = FEnd.
Proof.
  destruct m as [[[lo hi c tt r l] h out] pc f]. simpl. intros ->.
  split; reflexivity.
Qed.

(** * The claims *)

(** ** Uninterrupted runs *)

(** C1.  For every target [t] inside the envelope, [50 <= t <= 5000], a run
    whose stop event is never set (it is unset when the run is over, and a
    set event stays set) and whose thread gets its [ramp_budget t] lines
    comes to its end with final power equal to [t] (Python's [==]), reports
    "target reached: True" on the console, and is not interrupted. *)
Theorem C1_uninterrupted_run_reaches_target (w : World) (t : Q) (sched : list Actor) :
  50 <= t -> t <= 5000 ->
  (ramp_budget t <= ramp_moves sched)%nat ->
  signalled (exec sched (start (arm t w))) = false ->
  let m := exec sched (start (arm t w)) in
  rpc m = RDone
  /\ final_power (outcome m) == t
  /\ reached_target (outcome m) = true
  /\ interrupted (outcome m) = false
  /\ In (Stopped (final_power (outcome m)) true) (console (world m)).
Proof.
  intros Hlo Hhi Hb Hs m.
  pose proof (run_inv t w sched) as Hi. fold m in Hi.
  assert (Hd : rpc m = RDone) by (apply run_terminates, Hb).
  pose proof (inv_pc _ _ _ _ _ Hi) as Hp. rewrite Hd in Hp. simpl in Hp.
  pose proof (inv_exit _ _ _ _ _ Hi) as Hx. rewrite Hd in Hx.
  destruct (Hx I) as [Hge | Hset]; [|fold m in Hs; congruence].
  assert (Hle : current m <= t) by (rewrite Hp; apply ramp_level_le; lra).
  assert (Hr : Qle_bool t (current m) = true) by (apply Qle_bool_iff, Hge).
  pose proof (inv_report _ _ _ _ _ Hi Hd) as Hrep. rewrite Hr in Hrep.
  unfold outcome. simpl. rewrite (inv_target _ _ _ _ _ Hi).
  repeat split; auto. lra.
Qed.

Lemma C1_witness :
  let m := exec (repeat Ramp 34) (start (arm 50 (init ∅))) in
  rpc m = RDone
  /\ final_power (outcome m) == 50
  /\ reached_target (outcome m) = true
  /\ interrupted (outcome m) = false
  /\ In (Stopped (final_power (outcome m)) true) (console (world m)).
Proof.
  apply (C1_uninterrupted_run_reaches_target (init ∅) 50 (repeat Ramp 34)).
  - lra.
  - lra.
  - vm_compute. lia.
  - vm_compute. reflexivity.
Defined.

(** C9.  A run always comes to its end: whatever the target and whatever the
    foreground does, once the ramp thread has been given [ramp_budget t]
    moves it is done, and it left the loop because the target was reached or
    because the stop event was set. *)
Theorem C9_run_terminates (w : World) (t : Q) (sched : list Actor) :
  (ramp_budget t <= ramp_moves sched)%nat ->
  let m := exec sched (start (arm t w)) in
  rpc m = RDone /\ (t <= current m \/ signalled m = true).
Proof.
  intros Hb m.
  assert (Hd : rpc m = RDone) by (apply run_terminates, Hb).
  split; [exact Hd|].
  pose proof (inv_exit _ _ _ _ _ (run_inv t w sched)) as Hx. fold m in Hx.
  rewrite Hd in Hx. exact (Hx I).
Qed.

Lemma C9_witness :
  let m := exec (repeat Ramp 28) (start (arm 35 (init ∅))) in
  rpc m = RDone /\ (35 <= current m \/ signalled m = true).
Proof.
  apply (C9_run_terminates (init ∅) 35 (repeat Ramp 28)).
  vm_compute. lia.
Defined.

(** ** The sequence of progress observations *)

Lemma last_map_seq (f : nat -> Q) n d :
  (1 <= n)%nat -> List.last (map f (seq 1 n)) d = f n.
Proof.
  intros Hn. rewrite (seq_pred_snoc n Hn), map_app. simpl. apply last_last.
Qed.

Lemma nth_error_map_seq (f : nat -> Q) n k v :
  nth_error (map f (seq 1 n)) k = Some v -> v = f (S k).
Proof.
  intros H.
  assert (Hk : (k < n)%nat).
  { assert (Hl : length (map f (seq 1 n)) = n) by (rewrite length_map; apply length_seq).
    rewrite <- Hl. apply nth_error_Some. congruence. }
  apply (nth_error_nth _ _ (f 0%nat)) in H.
  rewrite map_nth, seq_nth in H by exact Hk. symmetry. exact H.
Qed.



(** ** The envelope *)

Lemma ramp_level_pos t j : (1 <= j)%nat -> 0 < t -> 0 < ramp_level t j.
Proof.
  destruct j as [|j]; [lia|]. intros _ Ht. unfold ramp_level.
  destruct (Qle_bool _ t); [|exact Ht].
  change 0 with (inject_Z 0). rewrite <- Zlt_Qlt. lia.
Qed.

Lemma ramp_level_nonneg t j : 0 <= t -> 0 <= ramp_level t j.
Proof.
  intros Ht. destruct j as [|j]; [simpl; lra|]. unfold ramp_level.
  destruct (Qle_bool _ t); [|exact Ht].
  change 0 with (inject_Z 0). rewrite <- Zle_Qle. lia.
Qed.

(** C3, as stated, fails: a ramp to the accepted target 50 reports 10 after
    its first step, a value strictly between 0 and the minimum. *)
Lemma C3_counterexample :
  eval_M (validate_power_setting 50) (init ∅) = true
  /\ observations (init ∅) (exec (repeat Ramp 7) (start (arm 50 (init ∅)))) = [10]
  /\ ~ in_envelope 50 5000 10.
Proof.
  split; [reflexivity|]. split; [reflexivity|].
  unfold in_envelope. intros [H | [H _]]; [discriminate H | lra].
Qed.

(** ** Once the stop event is set *)

Lemma ramp_step_signalled m :
  signalled m = true ->
  settle (step Ramp m) = settle m
  /\ target (step Ramp m) = target m
  /\ in_flight (rpc (step Ramp m)) = 0%nat
  /\ (rpc m <> RDone -> S (wind_down (rpc (step Ramp m))) <= wind_down (rpc m))%nat.
Proof.
  destruct m as [[[lo hi c tt r l] h out] pc f].
  unfold settle, clamp. destruct pc; run_line; intros Hs; simpl;
    repeat split; try reflexivity; try lia; try congruence.
  all: try (destruct (r && Qltb c tt); simpl; first [reflexivity | lia]).
  all: try (rewrite Hs; simpl; first [reflexivity | lia]).
  all: destruct (Qltb tt c); simpl; first [reflexivity | lia].
Qed.

Lemma fore_step_signalled m :
  settle (step Fore m) = settle m
  /\ target (step Fore m) = target m
  /\ rpc (step Fore m) = rpc m.
Proof.
  destruct m as [[[lo hi c tt r l] h out] pc f].
  unfold settle. destruct f; run_line; auto.
Qed.

Lemma exec_signalled sched :
  forall m,
    signalled m = true ->
    settle (exec sched m) = settle m
    /\ target (exec sched m) = target m
    /\ (increments sched m <= in_flight (rpc m))%nat
    /\ (wind_down (rpc (exec sched m)) <= wind_down (rpc m) - ramp_moves sched)%nat.
Proof.
  induction sched as [|a sched IH]; intros m Hs.
  - simpl. repeat split; lia.
  - rewrite exec_cons. simpl increments. simpl ramp_moves.
    pose proof (step_signal_kept a m Hs) as Hs'.
    destruct (IH _ Hs') as (IH1 & IH2 & IH3 & IH4).
    destruct a.
    + destruct (ramp_step_signalled m Hs) as (H1 & H2 & H3 & H4).
      rewrite IH1, IH2, H1, H2. repeat split.
      * destruct (rpc m); simpl in *; lia.
      * assert (rpc m = RDone \/ rpc m <> RDone) as [E|E]
          by (destruct (rpc m); auto; right; discriminate).
        -- rewrite ramp_next_pc, E in IH4. rewrite E. simpl in *. lia.
        -- specialize (H4 E). lia.
    + destruct (fore_step_signalled m) as (H1 & H2 & H3).
      rewrite IH1, IH2, H1, H2. rewrite H3 in *. repeat split; lia.
Qed.

Lemma wind_down_zero pc : wind_down pc = 0%nat -> pc = RDone.
Proof. destruct pc; simpl; auto; lia. Qed.

Lemma settle_done m : rpc m = RDone -> settle m = current m.
Proof. unfold settle. intros ->. reflexivity. Qed.

(** C4, as stated, fails: the foreground sets the stop event after the
    thread has passed the check of line 57, and the thread still makes the
    increment of line 60. *)
Lemma C4_counterexample :
  let m1 := exec (repeat Ramp 4 ++ [Fore; Fore]) (start (arm 100 (init ∅))) in
  signalled m1 = true
  /\ current m1 = 0
  /\ increments [Ramp] m1 = 1%nat
  /\ current (exec [Ramp] m1) = 10.
Proof. repeat split; reflexivity. Qed.

(** C4, amended.  Once the stop event is set during a run it stays set; the
    ramp thread starts no new step, so it makes no further increment except
    the one of a step whose check had already passed; it is done within seven
    of its own lines; its final power is what the state at the time of the
    signal settles to; the outcome is interrupted, and for a target [t >= 0]
    the final power is below [t] with the target not reached, or equal to [t]
    with the target reached. *)
Theorem C4_stop_signal_ends_run (w : World) (t : Q) (s1 s2 : list Actor) :
  let m1 := exec s1 (start (arm t w)) in
  let m2 := exec s2 m1 in
  signalled m1 = true ->
  signalled m2 = true
  /\ (increments s2 m1 <= in_flight (rpc m1))%nat
  /\ ((7 <= ramp_moves s2)%nat -> rpc m2 = RDone)
  /\ (rpc m2 = RDone ->
      final_power (outcome m2) = settle m1
      /\ interrupted (outcome m2) = true
      /\ (0 <= t ->
          (final_power (outcome m2) < t /\ reached_target (outcome m2) = false)
          \/ (final_power (outcome m2) == t /\ reached_target (outcome m2) = true))).
Proof.
  intros m1 m2 Hs.
  destruct (exec_signalled s2 m1 Hs) as (H1 & H2 & H3 & H4). fold m2 in H1, H2, H4.
  assert (Hs2 : signalled m2 = true) by (apply exec_signal_kept, Hs).
  split; [exact Hs2|]. split; [exact H3|]. split.
  - intros Hb. apply wind_down_zero.
    assert (wind_down (rpc m1) <= 7)%nat by (destruct (rpc m1); simpl; lia). lia.
  - intros Hd. unfold outcome. simpl. rewrite <- H1, (settle_done m2 Hd).
    split; [reflexivity|]. split; [exact Hs2|]. intros Ht.
    assert (Hi : RunInv (stop_event (self w)) (progress (console w)) t
                        (increments (s1 ++ s2) (start (arm t w))) m2).
    { unfold m2, m1. rewrite <- exec_app. apply run_inv. }
    pose proof (inv_pc _ _ _ _ _ Hi) as Hp. rewrite Hd in Hp. simpl in Hp.
    rewrite (inv_target _ _ _ _ _ Hi).
    assert (Hle : current m2 <= t) by (rewrite Hp; apply ramp_level_le, Ht).
    destruct (Qle_bool t (current m2)) eqn:E.
    + right. apply Qle_bool_iff in E. split; [lra | reflexivity].
    + left. split; [|reflexivity].
      destruct (Qlt_le_dec (current m2) t) as [H|H]; [exact H|].
      apply Qle_bool_iff in H. congruence.
Qed.

Lemma C4_witness :
  let m1 := exec (repeat Ramp 4 ++ [Fore; Fore]) (start (arm 100 (init ∅))) in
  let m2 := exec (repeat Ramp 7) m1 in
  signalled m2 = true
  /\ (increments (repeat Ramp 7) m1 <= in_flight (rpc m1))%nat
  /\ ((7 <= ramp_moves (repeat Ramp 7))%nat -> rpc m2 = RDone)
  /\ (rpc m2 = RDone ->
      final_power (outcome m2) = settle m1
      /\ interrupted (outcome m2) = true
      /\ (0 <= 100 ->
          (final_power (outcome m2) < 100 /\ reached_target (outcome m2) = false)
          \/ (final_power (outcome m2) == 100 /\ reached_target (outcome m2) = true))).
Proof.
  apply (C4_stop_signal_ends_run (init ∅) 100 (repeat Ramp 4 ++ [Fore; Fore])
                                 (repeat Ramp 7)).
  reflexivity.
Defined.

(** ** What each actor writes *)

Lemma step_constants a m :
  MIN_POWER (self (world (step a m))) = MIN_POWER (self (world m))
  /\ MAX_POWER (self (world (step a m))) = MAX_POWER (self (world m))
  /\ stop_event (self (world (step a m))) = stop_event (self (world m))
  /\ target (step a m) = target m.
Proof.
  destruct m as [[[lo hi c tt r l] h out] pc f].
  destruct a; [destruct pc | destruct f]; run_line; auto.
  destruct (Qltb tt c); auto.
Qed.

Lemma exec_constants sched :
  forall m,
    MIN_POWER (self (world (exec sched m))) = MIN_POWER (self (world m))
    /\ MAX_POWER (self (world (exec sched m))) = MAX_POWER (self (world m))
    /\ stop_event (self (world (exec sched m))) = stop_event (self (world m))
    /\ target (exec sched m) = target m.
Proof.
  induction sched as [|a sched IH]; intros m; [auto|].
  rewrite exec_cons. destruct (IH (step a m)) as (-> & -> & -> & ->).
  apply step_constants.
Qed.

Lemma ramp_reads_signal m : heap (world (step Ramp m)) = heap (world m).
Proof.
  destruct m as [[[lo hi c tt r l] h out] pc f].
  destruct pc; run_line; auto. destruct (Qltb tt c); auto.
Qed.

Lemma fore_step_frame m :
  current (step Fore m) = current m
  /\ rpc (step Fore m) = rpc m
  /\ (running (step Fore m) = running m
      \/ (fpc m = F86 /\ running (step Fore m) = false))
  /\ (heap (world (step Fore m)) = heap (world m)
      \/ (fpc m = F85
          /\ heap (world (step Fore m)) =
             Event.set (stop_event (self (world m))) (heap (world m)))).
Proof.
  destruct m as [[[lo hi c tt r l] h out] pc f].
  destruct f; run_line; repeat split; auto; right; split; reflexivity.
Qed.

Lemma signal_writes_bound sched :
  forall m,
    (signal_writes sched m <= match fpc m with FJoin | F85 => 1 | _ => 0 end)%nat.
Proof.
  induction sched as [|a sched IH]; intros m; simpl.
  - destruct (fpc m); lia.
  - specialize (IH (step a m)). destruct a.
    + assert (Hf : fpc (step Ramp m) = fpc m).
      { destruct m as [[[lo hi c tt r l] h out] pc f].
        destruct pc; run_line; auto. destruct (Qltb tt c); auto. }
      rewrite Hf in IH. simpl. exact IH.
    + destruct m as [[[lo hi c tt r l] h out] pc f].
      destruct f; run_line; simpl in *; lia.
Qed.

(** C8, as stated, fails: while a run is under way the running flag is set;
    the foreground's [emergency_stop] clears it. *)
Lemma C8_counterexample :
  let m := exec (repeat Ramp 4) (start (arm 100 (init ∅))) in
  rpc m = R60
  /\ is_running (self (world m)) = true
  /\ is_running (self (exec_M emergency_stop (world m))) = false
  /\ running (exec [Fore; Fore; Fore] m) = false.
Proof. repeat split; reflexivity. Qed.

(** C8, amended.  The foreground writes two pieces of run state: the stop
    event, set at line 85 and at most once in a cycle, and the running flag,
    cleared by [stop_transducer] at line 86.  It leaves current power, target
    power and the constants unchanged and does not move the ramp thread; the
    ramp thread only reads the stop event.  [emergency_stop] as a whole sets
    the event, clears the flag and prints the stop report. *)
Theorem C8_foreground_writes (m : Machine) (sched : list Actor) (w : World) :
  (current (step Fore m) = current m
   /\ target (step Fore m) = target m
   /\ rpc (step Fore m) = rpc m
   /\ stop_event (self (world (step Fore m))) = stop_event (self (world m)))
  /\ (running (step Fore m) = running m
      \/ (fpc m = F86 /\ running (step Fore m) = false))
  /\ (heap (world (step Fore m)) = heap (world m)
      \/ (fpc m = F85
          /\ heap (world (step Fore m)) =
             Event.set (stop_event (self (world m))) (heap (world m))))
  /\ heap (world (step Ramp m)) = heap (world m)
  /\ (signal_writes sched (start w) <= 1)%nat
  /\ exec_M emergency_stop w =
     mkWorld (with_is_running false (self w))
             (Event.set (stop_event (self w)) (heap w))
             (console w ++ [Stopped (current_power (self w))
                                    (Qle_bool (target_power (self w))
                                              (current_power (self w)))]).
Proof.
  destruct (fore_step_frame m) as (H1 & H2 & H3 & H4).
  destruct (step_constants Fore m) as (_ & _ & H5 & H6).
  repeat split; auto.
  - apply ramp_reads_signal.
  - apply (signal_writes_bound sched (start w)).
Qed.

(** ** The envelope check *)

(** C6.  [validate_power_setting power] answers true exactly when
    [MIN_POWER <= power <= MAX_POWER]; the two constants are 50 and 5000 from
    [__init__] on and no line of either actor changes them, so in every state
    of a run the answer is true exactly when [50 <= power <= 5000]; and the
    call leaves the world (fields, events, console) as it found it. *)
Theorem C6_validate_power_setting
        (h : gmap nat bool) (t : Q) (sched : list Actor) (w : World) (power : Q) :
  (MIN_POWER (self (init h)) = 50 /\ MAX_POWER (self (init h)) = 5000)
  /\ (eval_M (validate_power_setting power) w = true
      <-> MIN_POWER (self w) <= power /\ power <= MAX_POWER (self w))
  /\ (eval_M (validate_power_setting power)
             (world (exec sched (start (arm t (init h))))) = true
      <-> 50 <= power /\ power <= 5000)
  /\ exec_M (validate_power_setting power) w = w.
Proof.
  assert (Hgen : forall w', eval_M (validate_power_setting power) w' = true
                            <-> MIN_POWER (self w') <= power /\ power <= MAX_POWER (self w')).
  { intros w'. unfold eval_M. simpl. rewrite andb_true_iff, !Qle_bool_iff. reflexivity. }
  split; [split; reflexivity|]. split; [apply Hgen|]. split; [|reflexivity].
  rewrite Hgen.
  destruct (exec_constants sched (start (arm t (init h)))) as (-> & -> & _).
  reflexivity.
Qed.

(** ** The stop event across the cycles of a session *)

Lemma is_set_after_clear l h : Event.is_set l (Event.clear l h) = false.
Proof. unfold Event.is_set, Event.clear. rewrite lookup_insert_eq. reflexivity. Qed.

Lemma dom_overwrite (l : nat) (b : bool) (h : gmap nat bool) :
  l ∈ dom h -> dom (<[l := b]> h) = dom h.
Proof. intros H. apply dom_insert_lookup_L, elem_of_dom, H. Qed.

Lemma holds_event_step l d a m :
  l ∈ d -> holds_event l d (world m) -> holds_event l d (world (step a m)).
Proof.
  intros Hl [H1 H2]. split.
  - destruct (step_constants a m) as (_ & _ & -> & _). exact H1.
  - destruct a.
    + rewrite ramp_reads_signal. exact H2.
    + destruct (fore_step_frame m) as (_ & _ & _ & [-> | [_ ->]]); [exact H2|].
      unfold Event.set. rewrite dom_overwrite; [exact H2 | rewrite H1, H2; exact Hl].
Qed.

Lemma holds_event_exec l d sched :
  forall m, l ∈ d -> holds_event l d (world m) -> holds_event l d (world (exec sched m)).
Proof.
  induction sched as [|a sched IH]; intros m Hl H; [exact H|].
  rewrite exec_cons. apply IH; [exact Hl|]. apply holds_event_step; assumption.
Qed.

Lemma holds_event_clear l d w :
  l ∈ d -> holds_event l d w -> holds_event l d (exec_M event_clear w).
Proof.
  intros Hl [H1 H2]. split; [exact H1|]. unfold exec_M, event_clear, Event.clear. simpl.
  rewrite dom_overwrite; [exact H2 | rewrite H1, H2; exact Hl].
Qed.

Lemma holds_event_stop l d w :
  l ∈ d -> holds_event l d w -> holds_event l d (exec_M emergency_stop w).
Proof.
  destruct w as [[lo hi c tt r l'] h out]. unfold holds_event. run_line.
  simpl. intros Hl [H1 H2]. split; [exact H1|]. unfold Event.set.
  rewrite dom_overwrite; [exact H2 | rewrite H1, H2; exact Hl].
Qed.

Lemma holds_event_arm l d p w : holds_event l d w -> holds_event l d (arm p w).
Proof. intros H. exact H. Qed.

Lemma run_loop_signal l d fuel :
  forall stdin scheds w,
    l ∈ d -> holds_event l d w ->
    Forall (fun c => cycle_signal c = l /\ cycle_signal_at_start c = false)
           (fst (run_loop fuel stdin scheds w))
    /\ holds_event l d (snd (run_loop fuel stdin scheds w)).
Proof.
  induction fuel as [|fuel IH]; intros stdin scheds w Hl Hw; cbn [run_loop].
  - split; [constructor | exact Hw].
  - pose proof (holds_event_clear l d w Hl Hw) as Hw1.
    set (w1 := exec_M event_clear w) in *.
    destruct (get_user_power_setting w1 stdin) as [[| p | |] rest]; cbn [fst snd].
    + split; [constructor | exact Hw1].
    + pose proof (holds_event_arm l d p w1 Hw1) as Hw2.
      set (m0 := start (arm p w1)).
      assert (Hsig : signalled m0 = false).
      { unfold m0, signalled, start, arm, w1, exec_M, event_clear. simpl.
        apply is_set_after_clear. }
      set (cycle := mkCycle (stop_event (self (arm p w1))) (signalled m0) p).
      assert (Hc : forall m', cycle_signal (cycle m') = l
                              /\ cycle_signal_at_start (cycle m') = false).
      { intros m'. split; [exact (proj1 Hw2) | exact Hsig]. }
      pose proof (holds_event_exec l d (hd [] scheds) m0 Hl Hw2) as Hm.
      set (m := exec (hd [] scheds) m0) in *.
      assert (Hend : forall s, holds_event l d (world (exec s m)))
        by (intros s; apply holds_event_exec; assumption).
      destruct (fpc m); cbn [fst snd];
        try (split; [constructor; [apply Hc | constructor] | apply Hend]).
      set (m' := exec (repeat Ramp (ramp_budget p)) m) in *.
      destruct rest as [|[| q | | |] rest']; cbn [fst snd];
        try (split; [constructor; [apply Hc | constructor] | apply Hend]).
      * destruct (IH rest' (tl scheds) (world m') Hl (Hend _)) as [IH1 IH2].
        destruct (run_loop fuel rest' (tl scheds) (world m')) as [cycles w'].
        cbn [fst snd] in *. split; [constructor; [apply Hc | exact IH1] | exact IH2].
      * split; [constructor; [apply Hc | constructor]|].
        apply holds_event_stop; [exact Hl | apply Hend].
    + split; [constructor|]. apply holds_event_stop; assumption.
    + split; [constructor | exact Hw1].
Qed.

(** C5, as stated, fails: the two cycles of this session poll the same event
    object, number 0, the only one the store ever holds. *)
Lemma C5_counterexample :
  let session := run [LNumber 50; LYes; LNumber 60; LOther] [] (init ∅) in
  map cycle_signal (fst session) = [0; 0]%nat
  /\ map cycle_target (fst session) = [50; 60]
  /\ dom (heap (snd session)) = {[ 0%nat ]}.
Proof. vm_compute. repeat split; reflexivity. Qed.

(** C5, amended.  All cycles of a session share the one event object the
    controller was built with: no cycle creates an event.  Line 99 clears it
    before each cycle, so every cycle starts with the event unset, whatever
    was done to it before. *)
Theorem C5_event_cleared_each_cycle
        (stdin : list Line) (scheds : list (list Actor)) (w : World) :
  stop_event (self w) ∈ dom (heap w) ->
  let session := run stdin scheds w in
  Forall (fun c => cycle_signal c = stop_event (self w)
                   /\ cycle_signal_at_start c = false) (fst session)
  /\ stop_event (self (snd session)) = stop_event (self w)
  /\ dom (heap (snd session)) = dom (heap w).
Proof.
  intros Hl session.
  destruct (run_loop_signal (stop_event (self w)) (dom (heap w)) (S (length stdin))
                            stdin scheds w Hl (conj eq_refl eq_refl)) as (H1 & H2 & H3).
  auto.
Qed.

Lemma C5_witness :
  let w := exec_M emergency_stop (init ∅) in
  let session := run [LNumber 50; LYes; LNumber 60; LOther] [] w in
  Forall (fun c => cycle_signal c = stop_event (self w)
                   /\ cycle_signal_at_start c = false) (fst session)
  /\ stop_event (self (snd session)) = stop_event (self w)
  /\ dom (heap (snd session)) = dom (heap w).
Proof.
  apply (C5_event_cleared_each_cycle [LNumber 50; LYes; LNumber 60; LOther] []
                                     (exec_M emergency_stop (init ∅))).
  apply elem_of_dom. exists true. vm_compute. reflexivity.
Defined.

(** * Further properties of the code *)

(** ** [get_user_power_setting] *)

Lemma prompt_skips w skipped rest :
  forallb (reprompted w) skipped = true ->
  get_user_power_setting w (skipped ++ rest) = get_user_power_setting w rest.
Proof.
  induction skipped as [|l skipped IH]; intros H; [reflexivity|].
  simpl in H. apply andb_true_iff in H as [Hl Hs]. specialize (IH Hs).
  destruct l; simpl in *; try discriminate; try exact IH.
  apply negb_true_iff in Hl. rewrite Hl. exact IH.
Qed.

Lemma prompt_decomposes w stdin :
  exists skipped,
    forallb (reprompted w) skipped = true
    /\ match get_user_power_setting w stdin with
       | (PPower p, rest) =>
           stdin = skipped ++ LNumber p :: rest
           /\ eval_M (validate_power_setting p) w = true
       | (PQuit, rest) => stdin = skipped ++ LQuit :: rest
       | (PInterrupt, rest) => stdin = skipped ++ LCtrlC :: rest
       | (PEof, rest) => stdin = skipped /\ rest = []
       end.
Proof.
  induction stdin as [|l stdin (skipped & Hs & IH)].
  - exists []. simpl. auto.
  - destruct l; simpl.
    + exists []. auto.
    + destruct (eval_M (validate_power_setting p) w) eqn:E.
      * exists []. auto.
      * exists (LNumber p :: skipped). simpl. rewrite E. simpl. split; [exact Hs|].
        destruct (get_user_power_setting w stdin) as [[| q | |] rest];
          [rewrite IH; reflexivity | destruct IH as [-> Hq]; auto
          | rewrite IH; reflexivity | destruct IH as [-> ->]; auto].
    + exists (LYes :: skipped). simpl. split; [exact Hs|].
      destruct (get_user_power_setting w stdin) as [[| q | |] rest];
        [rewrite IH; reflexivity | destruct IH as [-> Hq]; auto
        | rewrite IH; reflexivity | destruct IH as [-> ->]; auto].
    + exists (LOther :: skipped). simpl. split; [exact Hs|].
      destruct (get_user_power_setting w stdin) as [[| q | |] rest];
        [rewrite IH; reflexivity | destruct IH as [-> Hq]; auto
        | rewrite IH; reflexivity | destruct IH as [-> ->]; auto].
    + exists []. auto.
Qed.

(** X1.  [get_user_power_setting] returns a power exactly when the input
    holds an in-range number before any ['q'] or interrupt: the lines before
    it were all re-prompted, it is the returned value, and the input after it
    is left for the next prompt. *)
Theorem prompt_returns_first_valid_power w stdin p rest :
  get_user_power_setting w stdin = (PPower p, rest)
  <-> exists skipped,
        stdin = skipped ++ LNumber p :: rest
        /\ forallb (reprompted w) skipped = true
        /\ eval_M (validate_power_setting p) w = true.
Proof.
  split.
  - intros H. destruct (prompt_decomposes w stdin) as (skipped & Hs & Hd).
    rewrite H in Hd. destruct Hd as [Heq Hv]. exists skipped. auto.
  - intros (skipped & -> & Hs & Hv). rewrite (prompt_skips _ _ _ Hs). simpl.
    rewrite Hv. reflexivity.
Qed.

(** X2.  The three ways [get_user_power_setting] ends without a power:
    ['q'] after re-prompted lines only gives [None]; an interrupt after
    re-prompted lines only raises; and the input runs out exactly when every
    line of it was re-prompted. *)
Theorem prompt_ends_without_power w stdin rest :
  (get_user_power_setting w stdin = (PQuit, rest)
   <-> exists skipped,
         stdin = skipped ++ LQuit :: rest /\ forallb (reprompted w) skipped = true)
  /\ (get_user_power_setting w stdin = (PInterrupt, rest)
      <-> exists skipped,
            stdin = skipped ++ LCtrlC :: rest
            /\ forallb (reprompted w) skipped = true)
  /\ (get_user_power_setting w stdin = (PEof, rest)
      <-> rest = [] /\ forallb (reprompted w) stdin = true).
Proof.
  destruct (prompt_decomposes w stdin) as (skipped & Hs & Hd).
  split; [|split]; split.
  - intros H. rewrite H in Hd. exists skipped. auto.
  - intros (sk & -> & Hsk). rewrite (prompt_skips _ _ _ Hsk). reflexivity.
  - intros H. rewrite H in Hd. exists skipped. auto.
  - intros (sk & -> & Hsk). rewrite (prompt_skips _ _ _ Hsk). reflexivity.
  - intros H. rewrite H in Hd. destruct Hd as [-> ->]. auto.
  - intros [-> Hall]. rewrite <- (app_nil_r stdin).
    rewrite (prompt_skips _ _ _ Hall). reflexivity.
Qed.

Lemma prompt_consumes w stdin r rest :
  get_user_power_setting w stdin = (r, rest) ->
  (length rest <= length stdin)%nat
  /\ (forall p, r = PPower p -> length rest < length stdin)%nat.
Proof.
  intros H. destruct (prompt_decomposes w stdin) as (skipped & _ & Hd).
  rewrite H in Hd. destruct r.
  - subst stdin. rewrite length_app. simpl. split; [lia | discriminate].
  - destruct Hd as [-> _]. rewrite length_app. simpl. split; [lia | intros; lia].
  - subst stdin. rewrite length_app. simpl. split; [lia | discriminate].
  - destruct Hd as [_ ->]. simpl. split; [lia | discriminate].
Qed.

(** ** The session loop, cycle by cycle *)

(** An induction principle for [run_loop]: [Inv] holds of the world between
    cycles, [Pj] of a cycle that was joined, [P] of every cycle. *)
Section SessionInduction.

Variable Inv : World -> Prop.
Variables Pj P : Cycle -> Prop.

Hypothesis Inv_clear : forall w, Inv w -> Inv (exec_M event_clear w).
Hypothesis Inv_stop : forall w, Inv w -> Inv (exec_M emergency_stop w).
Hypothesis Pj_P : forall c, Pj c -> P c.

Hypothesis cycle_joined :
  forall w stdin p rest sched,
    Inv w ->
    get_user_power_setting (exec_M event_clear w) stdin = (PPower p, rest) ->
    let w2 := arm p (exec_M event_clear w) in
    let m := exec sched (start w2) in
    let m' := exec (repeat Ramp (ramp_budget p)) m in
    fpc m = FJoin ->
    Pj (mkCycle (stop_event (self w2)) (signalled (start w2)) p m')
    /\ Inv (world m').

Hypothesis cycle_interrupted :
  forall w stdin p rest sched,
    Inv w ->
    get_user_power_setting (exec_M event_clear w) stdin = (PPower p, rest) ->
    let w2 := arm p (exec_M event_clear w) in
    let m := exec sched (start w2) in
    let m' := exec [Fore; Fore; Fore] m in
    fpc m <> FJoin ->
    P (mkCycle (stop_event (self w2)) (signalled (start w2)) p m')
    /\ Inv (world m').

Lemma run_loop_cycles fuel :
  forall stdin scheds w,
    Inv w ->
    Forall P (fst (run_loop fuel stdin scheds w))
    /\ Forall Pj (removelast (fst (run_loop fuel stdin scheds w)))
    /\ Inv (snd (run_loop fuel stdin scheds w)).
Proof.
  induction fuel as [|fuel IH]; intros stdin scheds w Hw; cbn [run_loop].
  - repeat split; [constructor | constructor | exact Hw].
  - pose proof (Inv_clear w Hw) as Hw1.
    destruct (get_user_power_setting (exec_M event_clear w) stdin)
      as [[| p | |] rest] eqn:Eg; cbn [fst snd].
    + repeat split; [constructor | constructor | exact Hw1].
    + pose proof (cycle_joined w stdin p rest (hd [] scheds) Hw Eg) as Hj.
      pose proof (cycle_interrupted w stdin p rest (hd [] scheds) Hw Eg) as Hi.
      cbv zeta in Hj, Hi.
      set (w2 := arm p (exec_M event_clear w)) in *.
      set (cycle := mkCycle (stop_event (self w2)) (signalled (start w2)) p) in *.
      set (m := exec (hd [] scheds) (start w2)) in *.
      destruct (fpc m) eqn:Ef.
      * destruct (Hj eq_refl) as [Hc Hm']. clear Hi.
        set (m' := exec (repeat Ramp (ramp_budget p)) m) in *.
        assert (Hone : Forall P [cycle m'] /\ Forall Pj (removelast [cycle m']))
          by (split; [constructor; [apply Pj_P, Hc | constructor] | constructor]).
        destruct rest as [|[| q | | |] rest']; cbn [fst snd];
          try (split; [apply Hone | split; [apply Hone | exact Hm']]).
        -- destruct (IH rest' (tl scheds) (world m') Hm') as (IH1 & IH2 & IH3).
           destruct (run_loop fuel rest' (tl scheds) (world m')) as [cycles w'].
           cbn [fst snd] in *. split; [|split; [|exact IH3]].
           ++ constructor; [apply Pj_P, Hc | exact IH1].
           ++ destruct cycles as [|c cycles]; [constructor|].
              change (removelast (cycle m' :: c :: cycles))
                with (cycle m' :: removelast (c :: cycles)).
              constructor; [exact Hc | exact IH2].
        -- split; [apply Hone | split; [apply Hone | apply Inv_stop, Hm']].
      * destruct Hi as [Hc Hm']; [discriminate|].
        repeat split; [constructor; [exact Hc | constructor] | constructor | exact Hm'].
      * destruct Hi as [Hc Hm']; [discriminate|].
        repeat split; [constructor; [exact Hc | constructor] | constructor | exact Hm'].
      * destruct Hi as [Hc Hm']; [discriminate|].
        repeat split; [constructor; [exact Hc | constructor] | constructor | exact Hm'].
    + repeat split; [constructor | constructor | apply Inv_stop, Hw1].
    + repeat split; [constructor | constructor | exact Hw1].
Qed.

End SessionInduction.

Lemma ramp_keeps_fore m : fpc (step Ramp m) = fpc m.
Proof.
  destruct m as [[[lo hi c tt r l] h out] pc f].
  destruct pc; run_line; auto. destruct (Qltb tt c); auto.
Qed.

Lemma join_keeps_fore n : forall m, fpc (exec (repeat Ramp n) m) = fpc m.
Proof.
  induction n as [|n IH]; intros m; [reflexivity|].
  simpl repeat. rewrite exec_cons, IH. apply ramp_keeps_fore.
Qed.

Lemma fore_leaves_join m : fpc (step Fore m) <> FJoin.
Proof.
  destruct m as [[[lo hi c tt r l] h out] pc f]. destruct f; run_line; discriminate.
Qed.

Lemma fore_never_rejoins sched :
  forall m, fpc m <> FJoin -> fpc (exec sched m) <> FJoin.
Proof.
  induction sched as [|a sched IH]; intros m H; [exact H|].
  rewrite exec_cons. apply IH. destruct a.
  - rewrite ramp_keeps_fore. exact H.
  - apply fore_leaves_join.
Qed.

Lemma handler_finishes m :
  fpc m <> FJoin -> fpc (exec [Fore; Fore; Fore] m) = FEnd.
Proof.
  destruct m as [[[lo hi c tt r l] h out] pc f]. destruct f; run_line; simpl; congruence.
Qed.



Lemma join_completes p w sched :
  rpc (exec (repeat Ramp (ramp_budget p)) (exec sched (start (arm p w)))) = RDone.
Proof.
  rewrite <- exec_app. apply run_terminates.
  assert (H : forall s n, ramp_moves (s ++ repeat Ramp n) = (ramp_moves s + n)%nat).
  { intros s n. induction s as [|[|] s IH]; simpl.
    - induction n as [|n IHn]; simpl; [reflexivity | f_equal; exact IHn].
    - f_equal. exact IH.
    - exact IH. }
  rewrite H. lia.
Qed.

Lemma constants_clear w : constants_kept w -> constants_kept (exec_M event_clear w).
Proof. intros H. exact H. Qed.

Lemma constants_stop w : constants_kept w -> constants_kept (exec_M emergency_stop w).
Proof. destruct w as [[lo hi c tt r l] h out]. intros H. exact H. Qed.

Lemma constants_exec p w sched :
  constants_kept w -> constants_kept (world (exec sched (start (arm p w)))).
Proof.
  intros [H1 H2]. destruct (exec_constants sched (start (arm p w))) as (E1 & E2 & _).
  split; [rewrite E1; exact H1 | rewrite E2; exact H2].
Qed.

Lemma accepted_in_range w stdin p rest :
  constants_kept w ->
  get_user_power_setting w stdin = (PPower p, rest) ->
  50 <= p /\ p <= 5000.
Proof.
  intros [H1 H2] Hg. destruct (prompt_decomposes w stdin) as (skipped & _ & Hd).
  rewrite Hg in Hd. destruct Hd as [_ Hv].
  unfold eval_M in Hv. simpl in Hv. apply andb_true_iff in Hv as [Ha Hb].
  apply Qle_bool_iff in Ha, Hb. rewrite H1 in Ha. rewrite H2 in Hb. auto.
Qed.

(** X3.  No run is ever started with a target outside the envelope: every
    cycle of the program has a target between 50 and 5000, and that target
    is still the controller's target when the cycle is over. *)
Theorem main_targets_validated (stdin : list Line) (scheds : list (list Actor)) :
  Forall (fun c => 50 <= cycle_target c /\ cycle_target c <= 5000
                   /\ target (cycle_end c) = cycle_target c)
         (fst (main stdin scheds)).
Proof.
  unfold main, run.
  apply (run_loop_cycles constants_kept
           (fun c => 50 <= cycle_target c /\ cycle_target c <= 5000
                     /\ target (cycle_end c) = cycle_target c)
           (fun c => 50 <= cycle_target c /\ cycle_target c <= 5000
                     /\ target (cycle_end c) = cycle_target c)).
  - apply constants_clear.
  - apply constants_stop.
  - auto.
  - intros w sin p rest sched Hw Hg w2 m m' _. simpl.
    destruct (accepted_in_range _ _ _ _ (constants_clear w Hw) Hg) as [Hlo Hhi].
    split; [|unfold m', m; rewrite <- exec_app; apply constants_exec, constants_clear, Hw].
    repeat split; auto. unfold m', m. rewrite <- exec_app.
    destruct (exec_constants (sched ++ repeat Ramp (ramp_budget p)) (start w2))
      as (_ & _ & _ & ->). reflexivity.
  - intros w sin p rest sched Hw Hg w2 m m' _. simpl.
    destruct (accepted_in_range _ _ _ _ (constants_clear w Hw) Hg) as [Hlo Hhi].
    split; [|unfold m', m; rewrite <- exec_app; apply constants_exec, constants_clear, Hw].
    repeat split; auto. unfold m', m. rewrite <- exec_app.
    destruct (exec_constants (sched ++ [Fore; Fore; Fore]) (start w2))
      as (_ & _ & _ & ->). reflexivity.
  - split; reflexivity.
Qed.

(** X5.  An interrupt ends the session: every cycle but the last ran to its
    end with the foreground in [join], and the last one either did the same
    or was interrupted, with the handler run to its end and the stop event
    set. *)
Theorem interrupt_ends_session
        (stdin : list Line) (scheds : list (list Actor)) (w : World) :
  Forall joined (removelast (fst (run stdin scheds w)))
  /\ Forall (fun c => joined c
                      \/ (fpc (cycle_end c) = FEnd
                          /\ interrupted (outcome (cycle_end c)) = true))
            (fst (run stdin scheds w)).
Proof.
  unfold run.
  destruct (run_loop_cycles (fun _ => True) joined
              (fun c => joined c
                        \/ (fpc (cycle_end c) = FEnd
                            /\ interrupted (outcome (cycle_end c)) = true))) with
    (fuel := S (length stdin)) (stdin := stdin) (scheds := scheds) (w := w)
    as (H1 & H2 & _); auto.
  - intros w' sin p rest sched _ _ w2 m m' Hf. split; [|exact I].
    split; simpl.
    + unfold m'. rewrite join_keeps_fore. exact Hf.
    + apply join_completes.
  - intros w' sin p rest sched _ _ w2 m m' Hf. split; [|exact I].
    right. cbn [cycle_end].
    assert (He : fpc m' = FEnd) by apply handler_finishes, Hf.
    split; [exact He|].
    assert (Hi : RunInv (stop_event (self (exec_M event_clear w')))
                        (progress (console (exec_M event_clear w'))) p
                        (increments (sched ++ [Fore; Fore; Fore]) (start w2)) m').
    { unfold m', m. rewrite <- exec_app. apply run_inv. }
    apply (inv_fore _ _ _ _ _ Hi). rewrite He. exact I.
Qed.


Lemma run_loop_fuel f1 :
  forall f2 stdin scheds w,
    (length stdin < f1)%nat -> (length stdin < f2)%nat ->
    run_loop f1 stdin scheds w = run_loop f2 stdin scheds w.
Proof.
  induction f1 as [|f1 IH]; intros f2 stdin scheds w H1 H2; [lia|].
  destruct f2 as [|f2]; [lia|]. cbn [run_loop].
  destruct (get_user_power_setting (exec_M event_clear w) stdin)
    as [[| p | |] rest] eqn:Eg; try reflexivity.
  destruct (prompt_consumes _ _ _ _ Eg) as [_ Hlt]. specialize (Hlt p eq_refl).
  destruct (fpc _); try reflexivity.
  destruct rest as [|[| q | | |] rest']; try reflexivity.
  simpl length in Hlt. rewrite (IH f2 rest') by lia. reflexivity.
Qed.

Lemma run_loop_count f :
  forall stdin scheds w,
    (2 * length (fst (run_loop f stdin scheds w)) <= length stdin + 1)%nat.
Proof.
  induction f as [|f IH]; intros stdin scheds w; cbn [run_loop]; [simpl; lia|].
  destruct (get_user_power_setting (exec_M event_clear w) stdin)
    as [[| p | |] rest] eqn:Eg; cbn [fst length]; try lia.
  destruct (prompt_consumes _ _ _ _ Eg) as [_ Hlt]. specialize (Hlt p eq_refl).
  destruct (fpc _); cbn [fst length]; try lia.
  destruct rest as [|[| q | | |] rest']; cbn [fst length]; try lia.
  simpl length in Hlt.
  match goal with
  | |- context [run_loop f rest' ?s ?v] =>
      specialize (IH rest' s v); destruct (run_loop f rest' s v) as [cycles wf]
  end.
  cbn [fst length] in *. lia.
Qed.

(** X4.  A session comes to its end on any input: letting the loop go round
    more often than the input has lines changes nothing, and a session of
    [n] cycles has read at least [2 * n - 1] lines, a target for each cycle
    and a ['y'] between two cycles. *)
Theorem session_ends_with_input
        (fuel : nat) (stdin : list Line) (scheds : list (list Actor)) (w : World) :
  (length stdin < fuel)%nat ->
  run_loop fuel stdin scheds w = run stdin scheds w
  /\ (2 * length (fst (run stdin scheds w)) <= length stdin + 1)%nat.
Proof.
  intros Hf. split.
  - unfold run. apply run_loop_fuel; lia.
  - apply run_loop_count.
Qed.

Lemma session_ends_with_input_witness :
  let stdin := [LNumber 50; LYes; LNumber 60; LOther] in
  run_loop 9 stdin [] (init ∅) = run stdin [] (init ∅)
  /\ (2 * length (fst (run stdin [] (init ∅))) <= length stdin + 1)%nat.
Proof.
  apply (session_ends_with_input 9 [LNumber 50; LYes; LNumber 60; LOther] [] (init ∅)).
  simpl. lia.
Defined.

(** ** The console of a run *)

Lemma progress_of_progress ps : progress (map Progress ps) = ps.
Proof. induction ps as [|c ps IH]; simpl; [reflexivity | f_equal; exact IH]. Qed.

Lemma progress_of_report m : progress (final_report m) = [].
Proof. unfold final_report. destruct (rpc m); reflexivity. Qed.

Lemma ramp_prints m :
  forall c0 ps,
    console (world m) = c0 ++ map Progress ps ++ final_report m ->
    exists ps',
      console (world (step Ramp m)) =
      c0 ++ map Progress ps' ++ final_report (step Ramp m).
Proof.
  destruct m as [[[lo hi c tt r l] h out] pc f]. unfold final_report.
  intros c0 ps. destruct pc; run_line; simpl; intros H.
  1, 2, 5, 8, 10 : exists ps; exact H.
  - exists ps. destruct (r && Qltb c tt); exact H.
  - exists ps. destruct (Event.is_set l h); exact H.
  - exists ps. destruct (Qltb tt c); exact H.
  - exists (ps ++ [c]). rewrite H, map_app, !app_nil_r, app_assoc. reflexivity.
  - exists ps. rewrite H, app_nil_r, app_assoc. reflexivity.
Qed.

Lemma joined_console sched :
  forall m c0 ps,
    console (world m) = c0 ++ map Progress ps ++ final_report m ->
    fpc (exec sched m) = FJoin ->
    exists ps',
      console (world (exec sched m)) =
      c0 ++ map Progress ps' ++ final_report (exec sched m).
Proof.
  induction sched as [|a sched IH]; intros m c0 ps H Hf; [exists ps; exact H|].
  rewrite exec_cons in *. destruct a.
  - destruct (ramp_prints m c0 ps H) as (ps' & H'). apply (IH _ c0 ps' H' Hf).
  - exfalso. apply (fore_never_rejoins sched (step Fore m)); [|exact Hf].
    apply fore_leaves_join.
Qed.

(** X7.  In a run the foreground never interrupts, the lines that display
    [current_power] come in this order: the progress lines of the run, then,
    once the thread is done (as it is after [ramp_budget t] moves), one stop
    report of the final power.  Banners and separators are not modelled, and
    nothing is said of them. *)
Theorem uninterrupted_run_console (w : World) (t : Q) (sched : list Actor) :
  let m := exec sched (start (arm t w)) in
  fpc m = FJoin ->
  console (world m) =
  console w ++ map Progress (observations w m) ++ final_report m
  /\ ((ramp_budget t <= ramp_moves sched)%nat ->
      final_report m = [Stopped (current m) (Qle_bool t (current m))]).
Proof.
  intros m Hf.
  destruct (joined_console sched (start (arm t w)) (console w) []) as (ps & H);
    [simpl; symmetry; apply app_nil_r | exact Hf |].
  fold m in H.
  assert (Hobs : observations w m = ps).
  { unfold observations. rewrite H, !progress_app, progress_of_progress,
      progress_of_report, app_nil_r. apply drop_app_length. }
  split; [rewrite Hobs; exact H|].
  intros Hb. assert (Hd : rpc m = RDone) by (apply run_terminates, Hb).
  pose proof (run_inv t w sched) as Hi. fold m in Hi.
  unfold final_report. rewrite Hd, (inv_target _ _ _ _ _ Hi). reflexivity.
Qed.

Lemma uninterrupted_run_console_witness :
  let m := exec (repeat Ramp 28) (start (arm 35 (init ∅))) in
  console (world m) =
  console (init ∅) ++ map Progress (observations (init ∅) m) ++ final_report m
  /\ final_report m = [Stopped (current m) (Qle_bool 35 (current m))].
Proof.
  destruct (uninterrupted_run_console (init ∅) 35 (repeat Ramp 28)) as [Hc Hr];
    [reflexivity|].
  split; [exact Hc|]. apply Hr. vm_compute. lia.
Defined.

Lemma stop_reports_app out1 out2 :
  stop_reports (out1 ++ out2) = (stop_reports out1 + stop_reports out2)%nat.
Proof.
  induction out1 as [|[c|c r] out1 IH]; simpl; [reflexivity | exact IH | f_equal; exact IH].
Qed.

Lemma step_reports a m :
  (stop_reports (console (world (step a m))) + reported m
   = stop_reports (console (world m)) + reported (step a m))%nat.
Proof.
  destruct m as [[[lo hi c tt r l] h out] pc f]. unfold reported.
  destruct a; [destruct pc | destruct f]; run_line; simpl;
    rewrite ?stop_reports_app; simpl; try lia.
  - destruct (r && Qltb c tt); simpl; lia.
  - destruct (Event.is_set l h); simpl; lia.
  - destruct (Qltb tt c); simpl; lia.
Qed.

(** X8.  A run prints a stop report when the ramp thread is done and another
    when the interrupt handler is, and no other: at most two in a cycle, and
    exactly one in a cycle that is not interrupted. *)
Theorem run_stop_reports (w : World) (t : Q) (sched : list Actor) :
  let m := exec sched (start (arm t w)) in
  stop_reports (console (world m)) = (stop_reports (console w) + reported m)%nat
  /\ (reported m <= 2)%nat.
Proof.
  intros m. split.
  - assert (H : forall s m0,
               (stop_reports (console (world (exec s m0))) + reported m0
                = stop_reports (console (world m0)) + reported (exec s m0))%nat).
    { induction s as [|a s IH]; intros m0; [reflexivity|].
      rewrite exec_cons. pose proof (IH (step a m0)). pose proof (step_reports a m0). lia. }
    specialize (H sched (start (arm t w))). fold m in H.
    change (reported (start (arm t w))) with 0%nat in H.
    change (console (world (start (arm t w)))) with (console w) in H. lia.
  - unfold reported. destruct (rpc m), (fpc m); simpl; lia.
Qed.

(** ** The running flag *)

Lemma step_running a m :
  (outside_loop (rpc m) -> running m = false) ->
  outside_loop (rpc (step a m)) -> running (step a m) = false.
Proof.
  destruct m as [[[lo hi c tt r l] h out] pc f]. unfold outside_loop.
  destruct a; [destruct pc | destruct f]; run_line; simpl; auto; try tauto.
  - destruct (r && Qltb c tt); simpl; tauto.
  - destruct (Event.is_set l h); simpl; tauto.
  - destruct (Qltb tt c); simpl; tauto.
Qed.

(** X12.  Started on a controller that is not running, the running flag is
    set only while the ramp thread is between its lines 54 and 76: it is
    false before the loop and false again once the thread is done, whatever
    the foreground does. *)
Theorem running_only_inside_loop (w : World) (t : Q) (sched : list Actor) :
  is_running (self w) = false ->
  let m := exec sched (start (arm t w)) in
  (outside_loop (rpc m) -> running m = false)
  /\ (rpc m = RDone -> running m = false).
Proof.
  intros Hw m.
  assert (H : forall s m0, (outside_loop (rpc m0) -> running m0 = false) ->
                           outside_loop (rpc (exec s m0)) -> running (exec s m0) = false).
  { induction s as [|a s IH]; intros m0 H0; [exact H0|].
    rewrite exec_cons. apply IH. apply step_running, H0. }
  assert (Hm : outside_loop (rpc m) -> running m = false).
  { apply H. intros _. destruct w as [[lo hi c tt r l] h out]. exact Hw. }
  split; [exact Hm|]. intros Hd. apply Hm. rewrite Hd. exact I.
Qed.

Lemma running_only_inside_loop_witness :
  let m := exec (repeat Ramp 28) (start (arm 35 (init ∅))) in
  (outside_loop (rpc m) -> running m = false)
  /\ (rpc m = RDone -> running m = false).
Proof.
  apply (running_only_inside_loop (init ∅) 35 (repeat Ramp 28)). reflexivity.
Defined.

(** ** Nothing outside [[0, 5000]] is displayed *)

Lemma ramp_leaves_53 m : rpc (step Ramp m) <> R53.
Proof.
  rewrite ramp_next_pc. destruct (rpc m); try discriminate.
  - destruct (running m && Qltb (current m) (target m)); discriminate.
  - destruct (signalled m); discriminate.
Qed.

Lemma never_back_to_53 sched : forall m, rpc m <> R53 -> rpc (exec sched m) <> R53.
Proof.
  induction sched as [|a sched IH]; intros m H; [exact H|].
  rewrite exec_cons. apply IH. destruct a.
  - apply ramp_leaves_53.
  - destruct (fore_keeps_ramp m) as (-> & _). exact H.
Qed.

Lemma current_before_53 sched :
  forall m, rpc (exec sched m) = R53 -> current (exec sched m) = current m.
Proof.
  induction sched as [|a sched IH]; intros m H; [reflexivity|].
  rewrite exec_cons in *. destruct a.
  - exfalso. apply (never_back_to_53 sched (step Ramp m)); [apply ramp_leaves_53 | exact H].
  - rewrite (IH _ H). apply fore_keeps_ramp.
Qed.

Lemma unclamped_in_range t j :
  (1 <= j)%nat -> t <= 5000 ->
  inject_Z (10 * (Z.of_nat j - 1)) < t ->
  displayable (inject_Z (10 * Z.of_nat j)).
Proof.
  intros Hj Ht Hg. unfold displayable.
  assert (Hz : (10 * (Z.of_nat j - 1) < 5000)%Z).
  { rewrite Zlt_Qlt. change (inject_Z 5000) with 5000. lra. }
  split.
  - change 0 with (inject_Z 0). rewrite <- Zle_Qle. lia.
  - change 5000 with (inject_Z 5000). rewrite <- Zle_Qle. lia.
Qed.

Lemma run_current_in_range (w : World) (t : Q) (sched : list Actor) :
  0 <= t -> t <= 5000 ->
  displayable (current_power (self w)) ->
  displayable (current (exec sched (start (arm t w)))).
Proof.
  intros Ht0 Ht1 Hw.
  pose proof (run_inv t w sched) as Hi.
  pose proof (inv_pc _ _ _ _ _ Hi) as Hp.
  pose proof (inv_guard _ _ _ _ _ Hi) as Hg.
  pose proof (current_before_53 sched (start (arm t w))) as H53.
  set (m := exec sched (start (arm t w))) in *.
  set (j := increments sched (start (arm t w))) in *.
  assert (Hl : displayable (ramp_level t j)).
  { split; [apply ramp_level_nonneg, Ht0|].
    apply Qle_trans with t; [apply ramp_level_le, Ht0 | exact Ht1]. }
  destruct (rpc m); simpl in Hp.
  - rewrite (H53 eq_refl). destruct w as [[lo hi c tt r l] h out]. exact Hw.
  - destruct Hp as [_ ->]. split; lra.
  - rewrite Hp. exact Hl.
  - destruct Hp as [-> _]. exact Hl.
  - destruct Hp as [-> _]. exact Hl.
  - destruct Hp as [Hj ->]. apply (unclamped_in_range t j Hj Ht1 (Hg Hj)).
  - destruct Hp as [_ ->]. exact Hl.
  - destruct Hp as [_ ->]. exact Hl.
  - rewrite Hp. exact Hl.
  - rewrite Hp. exact Hl.
Qed.

Lemma step_shows_current a m :
  console (world (step a m)) = console (world m)
  \/ exists o, console (world (step a m)) = console (world m) ++ [o]
               /\ shown o = current m.
Proof.
  destruct m as [[[lo hi c tt r l] h out] pc f].
  destruct a; [destruct pc | destruct f]; run_line; simpl; auto;
    try (right; eexists; split; reflexivity).
  destruct (Qltb tt c); auto.
Qed.

Lemma run_console_in_range (w : World) (t : Q) (sched : list Actor) :
  0 <= t -> t <= 5000 ->
  displayable (current_power (self w)) ->
  Forall (fun o => displayable (shown o)) (console w) ->
  Forall (fun o => displayable (shown o))
         (console (world (exec sched (start (arm t w))))).
Proof.
  intros Ht0 Ht1 Hw Hc.
  induction sched as [|a sched IH] using rev_ind; [exact Hc|].
  rewrite exec_app. simpl exec. change (fold_left _ [a] ?m) with (step a m).
  destruct (step_shows_current a (exec sched (start (arm t w)))) as [-> | (o & -> & Ho)];
    [exact IH|].
  apply Forall_app. split; [exact IH|]. constructor; [|constructor].
  rewrite Ho. apply run_current_in_range; assumption.
Qed.

Lemma in_range_clear w : displays_in_range w -> displays_in_range (exec_M event_clear w).
Proof. intros H. exact H. Qed.

Lemma in_range_stop w : displays_in_range w -> displays_in_range (exec_M emergency_stop w).
Proof.
  destruct w as [[lo hi c tt r l] h out]. intros (Hk & Hc & Ho).
  split; [exact Hk|]. split; [exact Hc|]. run_line. simpl.
  apply Forall_app. split; [exact Ho|]. constructor; [exact Hc | constructor].
Qed.

Lemma in_range_cycle w stdin p rest sched :
  displays_in_range w ->
  get_user_power_setting (exec_M event_clear w) stdin = (PPower p, rest) ->
  displays_in_range (world (exec sched (start (arm p (exec_M event_clear w))))).
Proof.
  intros (Hk & Hc & Ho) Hg.
  destruct (accepted_in_range _ _ _ _ (constants_clear w Hk) Hg) as [Hlo Hhi].
  split; [apply constants_exec, constants_clear, Hk|]. split.
  - apply (run_current_in_range (exec_M event_clear w) p sched); [lra | exact Hhi | exact Hc].
  - apply (run_console_in_range (exec_M event_clear w) p sched); [lra | exact Hhi | exact Hc | exact Ho].
Qed.

(** X9.  Whatever is typed and however the threads interleave, every power
    the program displays, in a progress line or in a stop report, lies in
    [[0, 5000]], and so does the power it ends on. *)
Theorem main_displays_in_range (stdin : list Line) (scheds : list (list Actor)) :
  Forall (fun o => 0 <= shown o /\ shown o <= 5000)
         (console (snd (main stdin scheds)))
  /\ 0 <= current_power (self (snd (main stdin scheds)))
  /\ current_power (self (snd (main stdin scheds))) <= 5000.
Proof.
  unfold main, run.
  destruct (run_loop_cycles displays_in_range (fun _ => True) (fun _ => True))
    with (fuel := S (length stdin)) (stdin := stdin) (scheds := scheds) (w := init ∅)
    as (_ & _ & (_ & Hc & Ho)).
  - apply in_range_clear.
  - apply in_range_stop.
  - auto.
  - intros w sin p rest sched Hw Hg w2 m m' _. split; [exact I|].
    unfold m', m, w2. rewrite <- exec_app. apply (in_range_cycle w sin p rest), Hg. exact Hw.
  - intros w sin p rest sched Hw Hg w2 m m' _. split; [exact I|].
    unfold m', m, w2. rewrite <- exec_app. apply (in_range_cycle w sin p rest), Hg. exact Hw.
  - split; [split; reflexivity|]. split; [split; simpl; lra | constructor].
  - split; [exact Ho | exact Hc].
Qed.

(** ** Stopping twice, and two controllers *)

(** X10.  [emergency_stop] is idempotent on the controller and its event: a
    second call changes no field and leaves the event set; it only prints
    the same stop report once more. *)
Theorem emergency_stop_twice (w : World) :
  let w1 := exec_M emergency_stop w in
  let w2 := exec_M emergency_stop w1 in
  self w2 = self w1
  /\ heap w2 = heap w1
  /\ Event.is_set (stop_event (self w2)) (heap w2) = true
  /\ is_running (self w2) = false
  /\ console w2 = console w1 ++ [List.last (console w1) (Progress 0)].
Proof.
  destruct w as [[lo hi c tt r l] h out]. run_line. simpl.
  repeat split.
  - unfold Event.set. apply insert_insert_eq.
  - apply is_set_after_set.
  - rewrite last_last. reflexivity.
Qed.

(** X11.  [__init__] gives the controller an event of its own: the object
    is none of those already in the store, it starts unset, and the events
    already there keep their flags.  So a second controller built next to a
    first has a different event, and stopping the first leaves the second's
    event unset. *)
Theorem init_creates_own_event (h : gmap nat bool) (l : nat) :
  let w1 := init h in
  let w2 := init (heap w1) in
  (stop_event (self w1) ∉ dom h)
  /\ Event.is_set (stop_event (self w1)) (heap w1) = false
  /\ (l ∈ dom h -> heap w1 !! l = h !! l)
  /\ stop_event (self w2) <> stop_event (self w1)
  /\ Event.is_set (stop_event (self w2))
       (heap (exec_M emergency_stop (mkWorld (self w1) (heap w2) (console w1))))
     = false.
Proof.
  simpl. unfold init, Event.new. simpl.
  set (l1 := fresh (dom h)).
  set (h1 := <[l1 := false]> h).
  set (l2 := fresh (dom h1)).
  assert (H1 : l1 ∉ dom h) by apply is_fresh.
  assert (H2 : l2 ∉ dom h1) by apply is_fresh.
  assert (Hne : l2 <> l1).
  { intros E. apply H2. rewrite E. unfold h1. rewrite dom_insert_L. set_solver. }
  split; [exact H1|]. split.
  { unfold Event.is_set, h1. rewrite lookup_insert_eq. reflexivity. }
  split.
  { intros Hl. unfold h1. apply lookup_insert_ne. intros E. apply H1. rewrite E. exact Hl. }
  split; [exact Hne|].
  run_line. simpl. unfold Event.is_set, Event.set.
  rewrite lookup_insert_ne by congruence. rewrite lookup_insert_eq. reflexivity.
Qed.

(** * The claims that rest on the facts about interrupts *)

Lemma increments_app s1 :
  forall s2 m,
    increments (s1 ++ s2) m = (increments s1 m + increments s2 (exec s1 m))%nat.
Proof.
  induction s1 as [|a s1 IH]; intros s2 m; [reflexivity|].
  cbn [app increments]. rewrite exec_cons, IH. lia.
Qed.

Lemma observations_after_signal (w : World) (t : Q) (s1 s2 : list Actor) :
  signalled (exec s1 (start (arm t w))) = true ->
  (length (observations w (exec (s1 ++ s2) (start (arm t w))))
   <= length (observations w (exec s1 (start (arm t w))))
      + pending (rpc (exec s1 (start (arm t w)))))%nat.
Proof.
  intros Hs. rewrite !observations_run, !length_map, !length_seq.
  rewrite increments_app, exec_app.
  set (m1 := exec s1 (start (arm t w))) in *.
  destruct (exec_signalled s2 m1 Hs) as (_ & _ & Hinc & _).
  pose proof (inv_pc _ _ _ _ _ (run_inv t w s1)) as Hp. fold m1 in Hp.
  pose proof (printed_le (rpc (exec s2 m1))
                         (increments s1 (start (arm t w)) + increments s2 m1)) as Hle.
  destruct (rpc m1); simpl in *; lia.
Qed.

Lemma uninterrupted_count (w : World) (t : Q) (sched : list Actor) :
  rpc (exec sched (start (arm t w))) = RDone ->
  signalled (exec sched (start (arm t w))) = false ->
  increments sched (start (arm t w)) = steps_needed t.
Proof.
  intros Hd Hs.
  pose proof (run_inv t w sched) as Hi.
  pose proof (inv_pc _ _ _ _ _ Hi) as Hp. rewrite Hd in Hp. simpl in Hp.
  pose proof (inv_exit _ _ _ _ _ Hi) as Hx. rewrite Hd in Hx.
  destruct (Hx I) as [Hge | Hset]; [|congruence].
  destruct (inv_level_count _ _ _ _ _ Hi) as (Hle & _).
  apply Nat.le_antisymm; [exact Hle|].
  rewrite Hp in Hge.
  destruct (increments sched (start (arm t w))) as [|j].
  - simpl in Hge. unfold steps_needed, power_increment.
    assert (Hq : t / 10 <= 0) by (apply Qle_shift_div_r; lra).
    pose proof (Qceiling_resp_le _ _ Hq) as Hc. change (Qceiling 0) with 0%Z in Hc. lia.
  - apply steps_needed_reached.
    unfold ramp_level in Hge. destruct (Qle_bool _ t) eqn:E; [exact Hge|].
    destruct (Qlt_le_dec t (inject_Z (10 * Z.of_nat (S j)))) as [H|H]; [lra|].
    apply Qle_bool_iff in H. congruence.
Qed.

(** C2.  The progress observations of a run are strictly increasing and
    never above the target, one per increment.  The run comes to its end
    once the thread has had [ramp_budget t] moves, and then the sequence has
    ended on the final power (0 for the empty sequence): with the stop event
    unset it holds all [ceil (t / 10)] observations and, for [t > 0], ends on
    the target; and from the moment the stop event is set it grows by no
    more than the observation of the step whose check had already passed,
    so it stops at the first check that sees the event. *)
Theorem C2_progress_increasing_and_clamped (w : World) (t : Q) (sched : list Actor) :
  let m0 := start (arm t w) in
  let m := exec sched m0 in
  let obs := observations w m in
  StronglySorted Qlt obs
  /\ Forall (fun v => v <= t) obs
  /\ length obs = printed (rpc m) (increments sched m0)
  /\ (rpc m = RDone -> length obs = increments sched m0)
  /\ (rpc m = RDone -> obs <> [] -> List.last obs 0 = current m)
  /\ (rpc m = RDone -> obs <> [] -> current m == t \/ signalled m = true)
  /\ ((ramp_budget t <= ramp_moves sched)%nat -> rpc m = RDone)
  /\ (rpc m = RDone -> List.last obs 0 = current m)
  /\ (rpc m = RDone -> signalled m = false ->
      length obs = steps_needed t /\ (0 < t -> obs <> [] /\ List.last obs 0 == t))
  /\ (forall s1 s2, sched = s1 ++ s2 -> signalled (exec s1 m0) = true ->
      (length obs <= length (observations w (exec s1 m0))
                     + pending (rpc (exec s1 m0)))%nat).
Proof.
  intros m0 m obs.
  pose proof (run_inv t w sched) as Hi. fold m0 in Hi. fold m in Hi.
  assert (Hobs : obs = map (ramp_level t) (seq 1 (printed (rpc m) (increments sched m0))))
    by apply observations_run.
  pose proof (printed_le (rpc m) (increments sched m0)) as Hle.
  pose proof (inv_guard _ _ _ _ _ Hi) as Hg.
  assert (Hlast : rpc m = RDone -> List.last obs 0 = current m).
  { intros Hd. pose proof (inv_pc _ _ _ _ _ Hi) as Hp. rewrite Hd in Hp. simpl in Hp.
    rewrite Hobs, Hd. simpl printed.
    destruct (increments sched m0) as [|j] eqn:Ej; [rewrite Hp; reflexivity|].
    rewrite last_map_seq by lia. auto. }
  split; [|split; [|split; [|split; [|split; [|split; [|split; [|split; [|split]]]]]]]].
  - rewrite Hobs. apply ramp_levels_sorted; [lia|]. intros Hn.
    eapply Qle_lt_trans; [|apply Hg; lia]. rewrite <- Zle_Qle. lia.
  - rewrite Hobs. apply List.Forall_forall. intros v Hv.
    apply in_map_iff in Hv as (y & <- & Hy). apply in_seq in Hy.
    apply ramp_level_pos_le. lia.
  - rewrite Hobs, length_map, length_seq. reflexivity.
  - intros Hd. rewrite Hobs, length_map, length_seq, Hd. reflexivity.
  - intros Hd _. apply Hlast, Hd.
  - intros Hd Hne.
    pose proof (inv_pc _ _ _ _ _ Hi) as Hp. rewrite Hd in Hp. simpl in Hp.
    pose proof (inv_exit _ _ _ _ _ Hi) as Hx. rewrite Hd in Hx.
    destruct (Hx I) as [Hge | Hset]; [left | right; exact Hset].
    rewrite Hobs, Hd in Hne. simpl printed in Hne.
    destruct (increments sched m0) as [|j] eqn:Ej; [simpl in Hne; congruence|].
    assert (current m <= t) by (rewrite Hp; apply ramp_level_pos_le; lia).
    lra.
  - intros Hb. apply run_terminates, Hb.
  - exact Hlast.
  - intros Hd Hs.
    assert (Hn : length obs = steps_needed t).
    { rewrite Hobs, length_map, length_seq, Hd. simpl printed.
      apply uninterrupted_count; assumption. }
    split; [exact Hn|]. intros Ht.
    assert (Hpos : (1 <= steps_needed t)%nat).
    { assert (0 < steps_needed t)%nat; [|lia].
      apply (steps_needed_above t 0). exact Ht. }
    split; [intros E; rewrite E in Hn; simpl in Hn; lia|].
    rewrite (Hlast Hd).
    pose proof (inv_pc _ _ _ _ _ Hi) as Hp. rewrite Hd in Hp. simpl in Hp.
    pose proof (inv_exit _ _ _ _ _ Hi) as Hx. rewrite Hd in Hx.
    destruct (Hx I) as [Hge | Hset]; [|congruence].
    assert (current m <= t) by (rewrite Hp; apply ramp_level_le; lra).
    lra.
  - intros s1 s2 -> Hs. apply observations_after_signal, Hs.
Qed.

Lemma C2_witness :
  let m0 := start (arm 100 (init ∅)) in
  let s1 := repeat Ramp 25 ++ [Fore; Fore] in
  let m := exec (s1 ++ [Fore] ++ repeat Ramp 3) m0 in
  rpc m = RDone
  /\ (length (observations (init ∅) m)
      <= length (observations (init ∅) (exec s1 m0)) + pending (rpc (exec s1 m0)))%nat.
Proof.
  destruct (C2_progress_increasing_and_clamped
              (init ∅) 100 ((repeat Ramp 25 ++ [Fore; Fore]) ++ [Fore] ++ repeat Ramp 3))
    as (_ & _ & _ & _ & _ & _ & _ & _ & _ & Hsig).
  split; [vm_compute; reflexivity|].
  apply (Hsig (repeat Ramp 25 ++ [Fore; Fore]) ([Fore] ++ repeat Ramp 3));
    [reflexivity | vm_compute; reflexivity].
Defined.

(** C10.  For a target [t > 0] the [i]-th progress observation ([i] counted
    from 1) is [min (10 * i) t], and every step made has one.  A run whose
    thread has had [ramp_budget t] moves is done; with the stop event unset
    it has made exactly [ceil (t / 10)] observations, the [i]-th being
    [min (10 * i) t] for every [i] up to that number; and if it ends below
    its target, the stop event is set and the final power is the integer
    [10 * k], [k] the number of increments made. *)
Theorem C10_progress_closed_form (w : World) (t : Q) (sched : list Actor) :
  0 < t ->
  let m0 := start (arm t w) in
  let m := exec sched m0 in
  let obs := observations w m in
  (forall i v, (1 <= i)%nat -> nth_error obs (i - 1) = Some v ->
               v == Qmin (10 * inject_Z (Z.of_nat i)) t)
  /\ (rpc m = RDone -> signalled m = false ->
      length obs = Z.to_nat (Qceiling (t / 10)))
  /\ (rpc m = RDone -> current m < t ->
      current m = inject_Z (10 * Z.of_nat (increments sched m0)))
  /\ (forall i, (1 <= i <= length obs)%nat ->
      exists v, nth_error obs (i - 1) = Some v
                /\ v == Qmin (10 * inject_Z (Z.of_nat i)) t)
  /\ ((ramp_budget t <= ramp_moves sched)%nat ->
      rpc m = RDone
      /\ (signalled m = false ->
          length obs = Z.to_nat (Qceiling (t / 10))
          /\ forall i, (1 <= i <= Z.to_nat (Qceiling (t / 10)))%nat ->
               exists v, nth_error obs (i - 1) = Some v
                         /\ v == Qmin (10 * inject_Z (Z.of_nat i)) t)
      /\ (current m < t ->
          signalled m = true
          /\ current m = inject_Z (10 * Z.of_nat (increments sched m0)))).
Proof.
  intros Ht m0 m obs.
  pose proof (run_inv t w sched) as Hi. fold m0 in Hi. fold m in Hi.
  assert (Hobs : obs = map (ramp_level t) (seq 1 (printed (rpc m) (increments sched m0))))
    by apply observations_run.
  pose proof (inv_pc _ _ _ _ _ Hi) as Hp.
  assert (Hform : forall i v, (1 <= i)%nat -> nth_error obs (i - 1) = Some v ->
                              v == Qmin (10 * inject_Z (Z.of_nat i)) t).
  { intros i v Hi1 Hnth. rewrite Hobs in Hnth.
    rewrite (nth_error_map_seq _ _ _ _ Hnth).
    replace (S (i - 1)) with i by lia. apply ramp_level_min, Hi1. }
  assert (Hall : forall i, (1 <= i <= length obs)%nat ->
                           exists v, nth_error obs (i - 1) = Some v
                                     /\ v == Qmin (10 * inject_Z (Z.of_nat i)) t).
  { intros i [Hi1 Hi2].
    destruct (nth_error obs (i - 1)) as [v|] eqn:E.
    - exists v. split; [reflexivity | apply (Hform i v Hi1 E)].
    - apply nth_error_None in E. lia. }
  assert (Hcount : rpc m = RDone -> signalled m = false ->
                   length obs = Z.to_nat (Qceiling (t / 10))).
  { intros Hd Hs. rewrite Hobs, length_map, length_seq, Hd. simpl printed.
    apply (uninterrupted_count w t sched Hd Hs). }
  assert (Hbelow : rpc m = RDone -> current m < t ->
                   current m = inject_Z (10 * Z.of_nat (increments sched m0))).
  { intros Hd Hlt. rewrite Hd in Hp. simpl in Hp. rewrite Hp in *.
    apply ramp_level_below, Hlt. }
  split; [exact Hform|]. split; [exact Hcount|]. split; [exact Hbelow|].
  split; [exact Hall|].
  intros Hb. assert (Hd : rpc m = RDone) by (apply run_terminates, Hb).
  split; [exact Hd|]. split.
  - intros Hs. split; [apply Hcount; assumption|].
    intros i Hi12. apply Hall. rewrite (Hcount Hd Hs). exact Hi12.
  - intros Hlt. split; [|apply Hbelow; assumption].
    pose proof (inv_exit _ _ _ _ _ Hi) as Hx. rewrite Hd in Hx.
    destruct (Hx I) as [Hge | Hset]; [lra | exact Hset].
Qed.

Lemma C10_witness :
  let m := exec (repeat Ramp 28) (start (arm 35 (init ∅))) in
  let obs := observations (init ∅) m in
  rpc m = RDone
  /\ length obs = Z.to_nat (Qceiling (35 / 10))
  /\ (forall i, (1 <= i <= Z.to_nat (Qceiling (35 / 10)))%nat ->
        exists v, nth_error obs (i - 1) = Some v
                  /\ v == Qmin (10 * inject_Z (Z.of_nat i)) 35).
Proof.
  assert (Ht : 0 < 35) by lra.
  destruct (C10_progress_closed_form (init ∅) 35 (repeat Ramp 28) Ht)
    as (_ & _ & _ & _ & Hrun).
  destruct Hrun as (Hd & Hs & _); [vm_compute; lia|].
  destruct Hs as [Hn Hi]; [vm_compute; reflexivity|].
  split; [exact Hd|]. split; [exact Hn | exact Hi].
Defined.

Lemma run_output_in_range (w : World) (t : Q) (sched : list Actor) :
  0 <= t -> t <= 5000 ->
  displayable (current_power (self w)) ->
  exists out,
    console (world (exec sched (start (arm t w)))) = console w ++ out
    /\ Forall (fun o => displayable (shown o)) out.
Proof.
  intros Ht0 Ht1 Hw.
  induction sched as [|a sched (out & Hc & Ho)] using rev_ind.
  - exists []. split; [symmetry; apply app_nil_r | constructor].
  - rewrite exec_app. simpl exec. change (fold_left _ [a] ?m) with (step a m).
    destruct (step_shows_current a (exec sched (start (arm t w))))
      as [-> | (o & -> & Hs)].
    + exists out. auto.
    + exists (out ++ [o]). split; [rewrite Hc, app_assoc; reflexivity|].
      apply Forall_app. split; [exact Ho|]. constructor; [|constructor].
      rewrite Hs. apply run_current_in_range; assumption.
Qed.

(** The interrupt handler's stop report shows [current_power] as it is when
    line 78 runs: for the accepted target 55, between lines 60 and 63 of the
    sixth step, that is the unclamped 60. *)
Example handler_reports_unclamped_power :
  run_output (init ∅)
             (exec (repeat Ramp 35 ++ [Fore; Fore; Fore]) (start (arm 55 (init ∅))))
  = map Progress [10; 20; 30; 40; 50] ++ [Stopped 60 true].
Proof. vm_compute. reflexivity. Qed.

(** C3, amended.  For a run started with an accepted target [t], every
    progress observation lies in [(0, t]] and the ramp thread's final power
    in [[0, t]], both inside [[0, 5000]], and the thread does come to its
    end; and every value the run reports, the stop report of the interrupt
    handler included, lies in [[0, 5000]] when the controller's power did at
    the start of the run.  The ramp climbs from 0 through the values below
    the minimum, and the handler may report a step's value before it is
    clamped. *)
Theorem C3_reported_power_within_target (w : World) (t : Q) (sched : list Actor) :
  eval_M (validate_power_setting t) (init ∅) = true ->
  let m := exec sched (start (arm t w)) in
  Forall (fun v => 0 < v /\ v <= t /\ v <= 5000) (observations w m)
  /\ (rpc m = RDone ->
      0 <= final_power (outcome m) /\ final_power (outcome m) <= t
      /\ final_power (outcome m) <= 5000)
  /\ ((ramp_budget t <= ramp_moves sched)%nat -> rpc m = RDone)
  /\ (0 <= current_power (self w) /\ current_power (self w) <= 5000 ->
      Forall (fun o => 0 <= shown o /\ shown o <= 5000) (run_output w m)).
Proof.
  intros Hv m.
  assert (Ht : 50 <= t /\ t <= 5000).
  { unfold eval_M in Hv. simpl in Hv. apply andb_true_iff in Hv as [H1 H2].
    split; apply Qle_bool_iff; assumption. }
  pose proof (run_inv t w sched) as Hi. fold m in Hi.
  split; [|split; [|split]].
  - unfold m. rewrite observations_run. apply List.Forall_forall. intros v Hin.
    apply in_map_iff in Hin as (y & <- & Hy). apply in_seq in Hy.
    assert (ramp_level t y <= t) by (apply ramp_level_pos_le; lia).
    assert (0 < ramp_level t y) by (apply ramp_level_pos; [lia | lra]).
    repeat split; lra.
  - intros Hd. pose proof (inv_pc _ _ _ _ _ Hi) as Hp. rewrite Hd in Hp. simpl in Hp.
    unfold outcome. simpl. rewrite Hp.
    assert (ramp_level t (increments sched (start (arm t w))) <= t)
      by (apply ramp_level_le; lra).
    assert (0 <= ramp_level t (increments sched (start (arm t w))))
      by (apply ramp_level_nonneg; lra).
    repeat split; lra.
  - intros Hb. apply run_terminates, Hb.
  - intros Hw.
    destruct (run_output_in_range w t sched) as (out & Hc & Ho);
      [lra | lra | exact Hw |].
    unfold run_output. fold m in Hc. rewrite Hc, drop_app_length. exact Ho.
Qed.

Lemma C3_witness :
  let m := exec (repeat Ramp 35 ++ [Fore; Fore; Fore]) (start (arm 55 (init ∅))) in
  Forall (fun v => 0 < v /\ v <= 55 /\ v <= 5000) (observations (init ∅) m)
  /\ Forall (fun o => 0 <= shown o /\ shown o <= 5000) (run_output (init ∅) m).
Proof.
  destruct (C3_reported_power_within_target
              (init ∅) 55 (repeat Ramp 35 ++ [Fore; Fore; Fore]))
    as (Hobs & _ & _ & Hout); [reflexivity|].
  split; [exact Hobs|]. apply Hout. simpl. split; lra.
Defined.
